(** * WordleAssist: the word predicate, the constraint merge and the filter driver

    A shallow embedding of [protableword.py] (the interactive helper) and of
    [wordl.py] (the one-shot variant), followed by the properties of the
    word predicate, of the turn-over-turn constraint merge, of the chunked
    filter and of the console reporting.

    Python values are modelled as follows.
    - [str] is a list of characters; a character is a code point below 256
      or one of U+0130 and U+0307. U+0130 is the one code point that
      [str.lower] turns into two, and U+0307 is the second of the two; on
      these characters [str.lower] and [str.strip] are exact.
    - [int] is [Z]; indexing a [str] follows CPython: a negative index counts
      from the end and an index outside [-len, len) raises [IndexError].
    - a [set] is a [gset]; a [dict] is its list of items in insertion order.
    - a raised exception is the [Raise] outcome of the [result] type.
    - the console is the list of lines still to be typed and the list of
      messages printed so far; [output.txt] is the list of its lines.

    Of [main], the set-up of the session, one iteration of its loop and the
    loop itself are modelled, and of [wordl.py] also its [__main__] block;
    the console messages of the two loaders are left out. *)

From Stdlib Require Import ZArith Ascii String.
From stdpp Require Import base option list gmap sets strings.

(** ** Characters *)

(** A code point below 256, LATIN CAPITAL LETTER I WITH DOT ABOVE (U+0130)
    or COMBINING DOT ABOVE (U+0307). *)
Inductive char : Set :=
| Latin (c : ascii)
| U0130
| U0307.

Coercion Latin : ascii >-> char.
Bind Scope char_scope with char.

#[global] Instance char_eq_dec : EqDecision char.
Proof. solve_decision. Defined.

#[global] Instance char_countable : Countable char.
Proof.
  refine (inj_countable'
            (λ c, match c with Latin a => inl a | U0130 => inr true | U0307 => inr false end)
            (λ x, match x with inl a => Latin a | inr true => U0130 | inr false => U0307 end)
            _).
  by intros [].
Defined.

Abbreviation str := (list char).

(** A Python [str] literal of code points below 256. *)
Definition py (s : string) : str := Latin <$> list_ascii_of_string s.

(** ** Exceptions *)

Inductive exn : Set := IndexError | ValueError | TypeError | EOFError.

Inductive result (A : Type) : Type :=
| Ok (a : A)
| Raise (e : exn).
Arguments Ok {A} a.
Arguments Raise {A} e.

#[global] Instance exn_eq_dec : EqDecision exn.
Proof. solve_decision. Defined.

#[global] Instance result_eq_dec {A} `{EqDecision A} : EqDecision (result A).
Proof. solve_decision. Defined.

(** Sequencing: an exception ends the computation. *)
#[global] Instance result_ret : MRet result := λ A a, Ok a.
#[global] Instance result_bind : MBind result := λ A B k m,
  match m with
  | Ok a => k a
  | Raise e => Raise e
  end.

(** ** The [str] methods the program calls *)

Module Py.

(** [s[i]] for an [int] index. *)
Definition index (s : str) (i : Z) : result char :=
  let n := Z.of_nat (length s) in
  let j := if (i <? 0)%Z then (i + n)%Z else i in
  if ((0 <=? j)%Z && (j <? n)%Z)%bool
  then match s !! Z.to_nat j with
       | Some c => Ok c
       | None => Raise IndexError
       end
  else Raise IndexError.

(** [s[i:j]] for [0 <= i <= j]; a slice never raises. *)
Definition slice {A} (s : list A) (i j : nat) : list A := take (j - i) (drop i s).

(** The lowercase form of a code point below 256. *)
Definition lower_latin (c : ascii) : ascii :=
  let n := nat_of_ascii c in
  if ((65 <=? n) && (n <=? 90))%nat then ascii_of_nat (n + 32)
  else if ((192 <=? n) && (n <=? 222) && negb (n =? 215))%nat then ascii_of_nat (n + 32)
  else c.

(** The lowercase form of a character: U+0130 becomes U+0069 U+0307. *)
Definition lower_char (c : char) : str :=
  match c with
  | Latin a => [Latin (lower_latin a)]
  | U0130 => [Latin "i"; U0307]
  | U0307 => [U0307]
  end.

(** [s.lower()] *)
Definition lower (s : str) : str := s ≫= lower_char.

(** The characters [str.strip()] removes. *)
Definition is_space (c : char) : bool :=
  match c with
  | Latin a =>
      let n := nat_of_ascii a in
      (((9 <=? n) && (n <=? 13)) || ((28 <=? n) && (n <=? 32)) || (n =? 133) || (n =? 160))%nat
  | _ => false
  end.

Fixpoint lstrip (s : str) : str :=
  match s with
  | c :: s' => if is_space c then lstrip s' else s
  | [] => []
  end.

(** [s.strip()] *)
Definition strip (s : str) : str := reverse (lstrip (reverse (lstrip s))).

(** [s.split(sep)] for a one-character separator. *)
Fixpoint split (sep : char) (s : str) : list str :=
  match s with
  | [] => [[]]
  | c :: s' =>
      if decide (c = sep) then [] :: split sep s'
      else match split sep s' with
           | p :: ps => (c :: p) :: ps
           | [] => [[c]]
           end
  end.

(** [s.ljust(width, fill)] *)
Definition ljust (s : str) (width : Z) (fill : char) : str :=
  s ++ replicate (Z.to_nat width - length s) fill.

(** [range(n)] *)
Definition range (n : Z) : list nat := seq 0 (Z.to_nat n).

(** [range(0, n, step)] for [step > 0]: [0, step, 2*step, ...] below [n]. *)
Definition range_step (n step : nat) : list nat :=
  (λ k, k * step) <$> seq 0 ((n + step - 1) / step).

(** [itertools.product(alphabet, repeat=n)], joined into strings: the last
    position varies fastest. *)
Fixpoint product (alphabet : str) (n : nat) : list str :=
  match n with
  | 0 => [[]]
  | S n' => c ← alphabet; (c ::.) <$> product alphabet n'
  end.

Definition digit (c : char) : option Z :=
  match c with
  | Latin a =>
      let n := nat_of_ascii a in
      if ((48 <=? n) && (n <=? 57))%nat then Some (Z.of_nat (n - 48)) else None
  | _ => None
  end.

(** Decimal digits, with single underscores between them. *)
Fixpoint digits (acc : Z) (after_digit : bool) (s : str) : option Z :=
  match s with
  | [] => if after_digit then Some acc else None
  | c :: s' =>
      if decide (c = Latin "_")
      then if after_digit then digits acc false s' else None
      else match digit c with
           | Some d => digits (10 * acc + d) true s'
           | None => None
           end
  end.

(** A reader of decimal literals (an optional sign, then digits), which the
    examples pass for [int]; [None] stands for [ValueError]. *)
Definition int (s : str) : option Z :=
  match strip s with
  | Latin "-" :: r => Z.opp <$> digits 0 false r
  | Latin "+" :: r => digits 0 false r
  | r => digits 0 false r
  end.

End Py.

(** A [dict] from letters to position lists, as its items in insertion order. *)
Abbreviation dict := (list (str * list Z)).

(** [if letter in d: d[letter].extend(positions) else: d[letter] = positions] *)
Fixpoint dict_extend (d : dict) (letter : str) (positions : list Z) : dict :=
  match d with
  | [] => [(letter, positions)]
  | (k, v) :: d' =>
      if decide (k = letter) then (k, v ++ positions) :: d'
      else (k, v) :: dict_extend d' letter positions
  end.

(** ** protableword.py *)

Module Protableword.

(** [load_dictionary(word_length)]; [file] is [None] when [words.txt] does
    not exist, and otherwise the lines the file iterator yields. *)
Definition load_dictionary (file : option (list str)) (word_length : Z)
  : option (gset str) :=
  match file with
  | None => None
  | Some lines =>
      Some (list_to_set
              (Py.lower <$> (Py.strip <$>
                 filter (λ line, Z.of_nat (length (Py.strip line)) = word_length) lines)))
  end.

(** [load_illegal_combos()] *)
Definition load_illegal_combos (file : option (list str)) : gset str :=
  match file with
  | None => ∅
  | Some lines =>
      list_to_set
        (filter (λ pair, length pair = 2) ((λ line, Py.lower (Py.strip line)) <$> lines))
  end.

(** The loops of [check_word] return [Ok true] when they run to their end,
    [Ok false] when they execute [return False]. *)

(** [for i, c in enumerate(known_positions)], from index [i] on. *)
Fixpoint check_known (word : str) (i : nat) (known_positions : list (option char))
  : result bool :=
  match known_positions with
  | [] => Ok true
  | None :: rest => check_known word (S i) rest
  | Some c :: rest =>
      ch ← Py.index word (Z.of_nat i);
      if decide (ch ≠ c) then Ok false else check_known word (S i) rest
  end.

(** [for pos in positions] *)
Fixpoint check_positions (word : str) (letter : str) (positions : list Z)
  : result bool :=
  match positions with
  | [] => Ok true
  | pos :: rest =>
      if (pos <? Z.of_nat (length word))%Z
      then ch ← Py.index word pos;
           if decide ([ch] = letter) then Ok false
           else check_positions word letter rest
      else check_positions word letter rest
  end.

(** [for letter, positions in forbidden_positions.items()] *)
Fixpoint check_forbidden (word : str) (forbidden_positions : dict) : result bool :=
  match forbidden_positions with
  | [] => Ok true
  | (letter, positions) :: rest =>
      passed ← check_positions word letter positions;
      if passed : bool then check_forbidden word rest else Ok false
  end.

(** [for i in range(len(word)-1)] over the given indices. *)
Fixpoint check_combos (word : str) (illegal_combos : gset str) (indices : list nat) : bool :=
  match indices with
  | [] => true
  | i :: rest =>
      if decide (Py.lower (Py.slice word i (i + 2)) ∈ illegal_combos) then false
      else check_combos word illegal_combos rest
  end.

Definition check_word (word : str) (excluded_letters required_letters : gset char)
    (known_positions : list (option char)) (forbidden_positions : dict)
    (dictionary : option (gset str)) (illegal_combos : option (gset str))
  : result bool :=
  if match dictionary with
     | Some d => bool_decide (word ∉ d)
     | None => false
     end
  then Ok false
  else if existsb (λ ch, bool_decide (ch ∈ excluded_letters)) word then Ok false
  else if negb (forallb (λ ch, bool_decide (ch ∈ word)) (elements required_letters))
  then Ok false
  else
    passed ← check_known word 0 known_positions;
    if negb passed then Ok false
    else
      passed ← check_forbidden word forbidden_positions;
      if negb passed then Ok false
      else
        match illegal_combos with
        | Some combos =>
            if decide (combos ≠ ∅)
            then Ok (check_combos word combos (Py.range (Z.of_nat (length word) - 1)))
            else Ok true
        | None => Ok true
        end.

(** The list comprehension of [filter_chunk]. *)
Fixpoint filter_chunk (chunk : list str) (excluded_letters required_letters : gset char)
    (known_positions : list (option char)) (forbidden_positions : dict)
    (dictionary : option (gset str)) (illegal_combos : option (gset str))
  : result (list str) :=
  match chunk with
  | [] => Ok []
  | w :: rest =>
      keep ← check_word w excluded_letters required_letters known_positions
               forbidden_positions dictionary illegal_combos;
      kept ← filter_chunk rest excluded_letters required_letters known_positions
               forbidden_positions dictionary illegal_combos;
      Ok (if keep : bool then w :: kept else kept)
  end.

(** *** The interactive session of [main] *)

(** The four constraint collections: the persistent [master_*] variables,
    and likewise what one turn's prompts produce. *)
Record constraints : Type := Constraints {
  excluded_letters : gset char;
  required_letters : gset char;
  known_positions : list (option char);
  forbidden_positions : dict
}.

(** What [main] writes to the console. *)
Inductive prompt : Set :=
| AskExcluded | AskRequired | AskKnown | AskForbidden | AskContinue.

Inductive output : Type :=
| Prompt (p : prompt)
| TurnHeader (turn : nat)
| InvalidFormat
| Generating
| Remaining (count : nat)
| WordList (words : list str)
| TooMany.

(** Console and file system: the lines still to be typed, what has been
    printed, and the lines of [output.txt]. *)
Record world : Type := World {
  stdin : list str;
  stdout : list output;
  output_file : list str
}.

Definition print (o : output) (w : world) : world :=
  World (stdin w) (stdout w ++ [o]) (output_file w).

(** [input(p).strip().lower()] *)
Definition input (p : prompt) (w : world) : result (str * world) :=
  match stdin w with
  | [] => Raise EOFError
  | line :: rest =>
      Ok (Py.lower (Py.strip line), World rest (stdout w ++ [Prompt p]) (output_file w))
  end.

Section Parsing.

(** The built-in [int(s)]: [None] when it raises [ValueError]. *)
Variable int : str → option Z.

(** The body of the [try], lines 105-106: [None] when it raises. *)
Definition parse_entry (fp : str) : option (str * list Z) :=
  match Py.split ":" fp with
  | [letter; positions] =>
      positions ←
        (if decide ((Latin ",") ∈ positions)
         then mapM int (Py.split "," positions)
         else p ← int positions; Some [p]);
      Some (letter, positions)
  | _ => None
  end.

(** The [while True] loop of lines 100-112; every iteration reads one
    line of [stdin]. *)
Fixpoint read_forbidden (lines : list str) (printed : list output) (file : list str)
    (forbidden_positions : dict) : result (dict * world) :=
  match lines with
  | [] => Raise EOFError
  | line :: rest =>
      let fp := Py.lower (Py.strip line) in
      let printed := printed ++ [Prompt AskForbidden] in
      if decide (fp = []) then Ok (forbidden_positions, World rest printed file)
      else
        match parse_entry fp with
        | Some (letter, positions) =>
            read_forbidden rest printed file (dict_extend forbidden_positions letter positions)
        | None =>
            read_forbidden rest (printed ++ [InvalidFormat]) file forbidden_positions
        end
  end.

(** Lines 94-112: one turn's prompts. *)
Definition read_turn (word_length : Z) (w : world) : result (constraints * world) :=
  '(excluded, w) ← input AskExcluded w;
  '(required, w) ← input AskRequired w;
  '(known_positions_input, w) ← input AskKnown w;
  let known :=
    (λ c, if decide (c ≠ (Latin "_")) then Some c else None)
      <$> Py.ljust known_positions_input word_length "_" in
  '(forbidden, w) ← read_forbidden (stdin w) (stdout w) (output_file w) [];
  Ok (Constraints (list_to_set excluded) (list_to_set required) known forbidden, w).

End Parsing.

(** Lines 117-119, over the indices of [range(word_length)]. *)
Fixpoint merge_known (indices : list nat) (known master : list (option char))
  : result (list (option char)) :=
  match indices with
  | [] => Ok master
  | i :: rest =>
      match known !! i with
      | None => Raise IndexError
      | Some None => merge_known rest known master
      | Some (Some c) =>
          if decide (i < length master)
          then merge_known rest known (<[i := Some c]> master)
          else Raise IndexError
      end
  end.

(** Lines 120-124. *)
Definition merge_forbidden (master forbidden : dict) : dict :=
  foldl (λ m '(letter, positions), dict_extend m letter positions) master forbidden.

(** Lines 114-124: merge one turn's constraints into the master ones. *)
Definition merge (word_length : Z) (master turn : constraints) : result constraints :=
  known ← merge_known (Py.range word_length) (known_positions turn) (known_positions master);
  Ok (Constraints (excluded_letters master ∪ excluded_letters turn)
                  (required_letters master ∪ required_letters turn)
                  known
                  (merge_forbidden (forbidden_positions master) (forbidden_positions turn))).

Definition filter_with (c : constraints) (dictionary illegal_combos : option (gset str))
    (chunk : list str) : result (list str) :=
  filter_chunk chunk (excluded_letters c) (required_letters c) (known_positions c)
    (forbidden_positions c) dictionary illegal_combos.

Definition alphabet : str := py "abcdefghijklmnopqrstuvwxyz".

(** Lines 129-142: [itertools.product] refuses a negative [repeat]; the
    comprehension is the one of [filter_chunk]. *)
Definition filter_brute_force (word_length : Z) (c : constraints)
    (dictionary illegal_combos : option (gset str)) : result (list str) :=
  if (word_length <? 0)%Z then Raise ValueError
  else filter_with c dictionary illegal_combos (Py.product alphabet (Z.to_nat word_length)).

(** Lines 145-146; [cpu_count] is [os.cpu_count()]. *)
Definition chunks_of (cpu_count : positive) (possible_words : list str) : list (list str) :=
  let chunk_size := max 1 (length possible_words / Pos.to_nat cpu_count) in
  (λ i, Py.slice possible_words i (i + chunk_size))
    <$> Py.range_step (length possible_words) chunk_size.

(** Lines 148-160: [executor.map] returns the chunk results in chunk
    order, and re-raises the exception of the first chunk that failed. *)
Definition filter_chunks (c : constraints) (dictionary illegal_combos : option (gset str))
    (chunks : list (list str)) : result (list str) :=
  results ← mapM (filter_with c dictionary illegal_combos) chunks;
  Ok (concat results).

(** Lines 164-168. *)
Definition report (possible_words : list str) : list output :=
  Remaining (length possible_words) ::
  (if decide (length possible_words ≤ 20) then [WordList possible_words] else [TooMany]).

(** The variables of [main] that live across turns. *)
Record session : Type := Session {
  word_length : Z;
  dictionary : option (gset str);
  illegal_combos : gset str;
  use_bruteforce : bool;
  possible_words : option (list str);
  master : constraints
}.

(** Lines 126-160. *)
Definition filter_pass (cpu_count : positive) (s : session) (m : constraints) (w : world)
  : result (list str * world) :=
  match use_bruteforce s, possible_words s with
  | true, None =>
      words ← filter_brute_force (word_length s) m (dictionary s) (Some (illegal_combos s));
      Ok (words, print Generating w)
  | _, Some words =>
      words ← filter_chunks m (dictionary s) (Some (illegal_combos s))
                (chunks_of cpu_count words);
      Ok (words, w)
  | false, None => Raise TypeError
  end.

(** [save_words] overwrites [output.txt] with one word per line. *)
Definition save_words (possible_words : list str) (w : world) : world :=
  World (stdin w) (stdout w) possible_words.

(** Lines 162-168: save, then report. *)
Definition sink (possible_words : list str) (w : world) : world :=
  let w := save_words possible_words w in
  World (stdin w) (stdout w ++ report possible_words) (output_file w).

(** Lines 73-88, once the word length and the answer to "Use dictionary?"
    are read: [list(dictionary)] raises when the dictionary file is missing. *)
Definition start (word_length : Z) (use_dict : str)
    (dictionary_file combos_file : option (list str)) : result session :=
  '(dictionary, possible_words, use_bruteforce) ←
    (if decide (use_dict = py "y")
     then match load_dictionary dictionary_file word_length with
          | Some d => Ok (Some d, Some (elements d), false)
          | None => Raise TypeError
          end
     else Ok (None, None, true));
  Ok (Session word_length dictionary (load_illegal_combos combos_file) use_bruteforce
              possible_words
              (Constraints ∅ ∅ (replicate (Z.to_nat word_length) None) [])).

(** Lines 114-172: merge, filter, save, report, and ask whether to go on. *)
Definition finish_turn (cpu_count : positive) (s : session) (delta : constraints)
    (w : world) : result (session * world * bool) :=
  m ← merge (word_length s) (master s) delta;
  '(words, w) ← filter_pass cpu_count s m w;
  '(cont, w) ← input AskContinue (sink words w);
  Ok (Session (word_length s) (dictionary s) (illegal_combos s) (use_bruteforce s)
              (Some words) m,
      w, bool_decide (cont = py "y")).

(** One iteration of the [while True] loop of [main]: the new session, the
    world, and whether the user asked for another turn. *)
Definition turn (int : str → option Z) (cpu_count : positive) (n : nat)
    (s : session) (w : world) : result (session * world * bool) :=
  '(delta, w) ← read_turn int (word_length s) (print (TurnHeader n) w);
  finish_turn cpu_count s delta w.

End Protableword.

(** ** wordl.py *)

Module Wordl.

(** The module-level configuration. *)
Record config : Type := Config {
  excluded_letters : gset char;
  required_letters : gset char;
  known_positions : list (option char);
  forbidden_positions : dict;
  word_length : Z;
  USE_DICTIONARY : bool
}.

(** The values the file sets. *)
Definition configured : config :=
  {| excluded_letters := list_to_set (py "spektogh");
     required_letters := list_to_set (py "au");
     known_positions := [None; None; None; Some (Latin "a"); None];
     forbidden_positions := [(py "u", [2%Z])];
     word_length := 5;
     USE_DICTIONARY := true |}.

Definition alphabet : str := py "abcdefghijklmnopqrstuvwxyz".

Definition load_dictionary (cfg : config) (file : option (list str)) : option (gset str) :=
  if negb (USE_DICTIONARY cfg) then None
  else match file with
       | None => None
       | Some lines =>
           Some (list_to_set
                   (Py.lower <$> (Py.strip <$> filter (λ line, Py.strip line ≠ []) lines)))
       end.

(** [for i in range(word_length)] over the given indices. *)
Fixpoint check_known (cfg : config) (word : str) (indices : list nat) : result bool :=
  match indices with
  | [] => Ok true
  | i :: rest =>
      match known_positions cfg !! i with
      | None => Raise IndexError
      | Some None => check_known cfg word rest
      | Some (Some c) =>
          ch ← Py.index word (Z.of_nat i);
          if decide (ch ≠ c) then Ok false else check_known cfg word rest
      end
  end.

Fixpoint check_positions (cfg : config) (word : str) (letter : str) (positions : list Z)
  : result bool :=
  match positions with
  | [] => Ok true
  | pos :: rest =>
      if (pos <? word_length cfg)%Z
      then ch ← Py.index word pos;
           if decide ([ch] = letter) then Ok false
           else check_positions cfg word letter rest
      else check_positions cfg word letter rest
  end.

Fixpoint check_forbidden (cfg : config) (word : str) (forbidden : dict) : result bool :=
  match forbidden with
  | [] => Ok true
  | (letter, positions) :: rest =>
      passed ← check_positions cfg word letter positions;
      if passed : bool then check_forbidden cfg word rest else Ok false
  end.

(** [check_word] returns the word, or [None]. *)
Definition check_word (cfg : config) (word : str) (dictionary : option (gset str))
  : result (option str) :=
  if USE_DICTIONARY cfg &&
     match dictionary with
     | Some d => bool_decide (word ∉ d)
     | None => false
     end
  then Ok None
  else if bool_decide (excluded_letters cfg ≠ ∅) &&
          existsb (λ ch, bool_decide (ch ∈ excluded_letters cfg)) word
  then Ok None
  else if bool_decide (required_letters cfg ≠ ∅) &&
          negb (forallb (λ ch, bool_decide (ch ∈ word)) (elements (required_letters cfg)))
  then Ok None
  else
    passed ← check_known cfg word (Py.range (word_length cfg));
    if negb passed then Ok None
    else
      passed ← check_forbidden cfg word (forbidden_positions cfg);
      if negb passed then Ok None
      else Ok (Some word).

(** The words [process_chunk] builds for one start letter. *)
Definition candidates (cfg : config) (start_letter : char) : result (list str) :=
  if (word_length cfg - 1 <? 0)%Z then Raise ValueError
  else Ok ((start_letter ::.) <$> Py.product alphabet (Z.to_nat (word_length cfg - 1))).

Fixpoint check_all (cfg : config) (dictionary : option (gset str)) (words : list str)
  : result (list str) :=
  match words with
  | [] => Ok []
  | word :: rest =>
      w ← check_word cfg word dictionary;
      results ← check_all cfg dictionary rest;
      Ok (match w with Some w => w :: results | None => results end)
  end.

Definition process_chunk (cfg : config) (start_letter : char)
    (dictionary : option (gset str)) : result (list str) :=
  words ← candidates cfg start_letter;
  check_all cfg dictionary words.

End Wordl.

(** ** What the specification asks of an admitted word *)

Import Protableword.

Definition lowercase (word : str) : Prop := Py.lower word = word.

(** The six conditions of the word predicate, positions counted from 0. *)
Record admissible (word : str) (c : constraints)
    (lexicon illegal_pairs : option (gset str)) : Prop := Admissible {
  in_lexicon : ∀ d, lexicon = Some d → word ∈ d;
  no_excluded : ∀ ch, ch ∈ word → ch ∉ excluded_letters c;
  all_required : ∀ ch, ch ∈ required_letters c → ch ∈ word;
  known_match : ∀ i ch, known_positions c !! i = Some (Some ch) → word !! i = Some ch;
  forbidden_free : ∀ letter positions pos ch,
    (letter, positions) ∈ forbidden_positions c → pos ∈ positions →
    (0 ≤ pos < Z.of_nat (length word))%Z →
    word !! Z.to_nat pos = Some ch → [ch] ≠ letter;
  no_illegal_pair : ∀ pairs i, illegal_pairs = Some pairs →
    i + 1 < length word → Py.slice word i (i + 2) ∉ pairs
}.

(** Every listed forbidden position is a non-negative index. *)
Definition positions_nonneg (d : dict) : Prop :=
  ∀ letter positions pos, (letter, positions) ∈ d → pos ∈ positions → (0 ≤ pos)%Z.

(** A turn that fixes a position never names a letter other than the one
    already fixed there. *)
Definition agrees_with (master turn : constraints) : Prop :=
  ∀ i c c', known_positions master !! i = Some (Some c) →
            known_positions turn !! i = Some (Some c') → c' = c.


(** The constraints [wordl.py] is configured with. *)
Definition constraints_of (cfg : Wordl.config) : constraints :=
  Constraints (Wordl.excluded_letters cfg) (Wordl.required_letters cfg)
              (Wordl.known_positions cfg) (Wordl.forbidden_positions cfg).

Definition with_forbidden (cfg : Wordl.config) (d : dict) : Wordl.config :=
  Wordl.Config (Wordl.excluded_letters cfg) (Wordl.required_letters cfg)
               (Wordl.known_positions cfg) d (Wordl.word_length cfg)
               (Wordl.USE_DICTIONARY cfg).

(** [check_word] on a constraint record. *)
Definition word_predicate (word : str) (c : constraints)
    (lexicon illegal_pairs : option (gset str)) : result bool :=
  check_word word (excluded_letters c) (required_letters c) (known_positions c)
    (forbidden_positions c) lexicon illegal_pairs.

(** The master list of known positions has one slot per letter of the word. *)
Definition well_formed (s : session) : Prop :=
  length (known_positions (master s)) = Z.to_nat (word_length s).



(** ** The rest of the two programs *)

(** [d[k]]; [None] when [k not in d]. *)
Fixpoint dict_get (d : dict) (k : str) : option (list Z) :=
  match d with
  | [] => None
  | (k', v) :: d' => if decide (k' = k) then Some v else dict_get d' k
  end.

(** The [while True] loop of [main], lines 91-173, from turn [n] on; [None]
    when the fuel runs out before the loop ends. *)
Fixpoint turns (fuel : nat) (int : str → option Z) (cpu_count : positive) (n : nat)
    (s : session) (w : world) : option (result (session * world)) :=
  match fuel with
  | 0 => None
  | S fuel =>
      match turn int cpu_count n s w with
      | Raise e => Some (Raise e)
      | Ok (s', w', again) =>
          if again : bool then turns fuel int cpu_count (S n) s' w'
          else Some (Ok (s', w'))
      end
  end.

(** The [__main__] block of [wordl.py], lines 93-98: one future per letter of
    the alphabet; [completion] is the order in which [as_completed] yields
    them, and [f.result()] re-raises what the chunk raised. *)
Definition wordl_all_words (cfg : Wordl.config) (dictionary : option (gset str))
    (completion : list char) : result (list str) :=
  results ← mapM (λ letter, Wordl.process_chunk cfg letter dictionary) completion;
  Ok (concat results).

(** The forbidden positions that typed yellow entries add up to: those the
    [try] accepts, in the order typed. *)
Definition collect (int : str → option Z) (d : dict) (entries : list str) : dict :=
  foldl (λ d line,
           match parse_entry int (Py.lower (Py.strip line)) with
           | Some (letter, positions) => dict_extend d letter positions
           | None => d
           end) d entries.

(** What the loop prints while it reads them. *)
Definition transcript (int : str → option Z) (entries : list str) : list output :=
  entries ≫= λ line,
    match parse_entry int (Py.lower (Py.strip line)) with
    | Some _ => [Prompt AskForbidden]
    | None => [Prompt AskForbidden; InvalidFormat]
    end.

(** A session in which no check can go out of bounds: the master list has
    one slot per letter, no forbidden position is negative, and the
    candidates, once there are some, have the word length. *)
Definition in_bounds (s : session) : Prop :=
  well_formed s ∧
  positions_nonneg (forbidden_positions (master s)) ∧
  match possible_words s with
  | Some words => Forall (λ w, length w = Z.to_nat (word_length s)) words
  | None => use_bruteforce s = true ∧ (0 ≤ word_length s)%Z
  end.

(** What a session may do to its state from one turn to a later one: the
    set-up values stay, the letter sets and the forbidden positions only
    gain, a fixed position stays fixed, and the candidates only lose words. *)
Definition grows (s s' : session) : Prop :=
  word_length s' = word_length s ∧
  dictionary s' = dictionary s ∧
  illegal_combos s' = illegal_combos s ∧
  use_bruteforce s' = use_bruteforce s ∧
  excluded_letters (master s) ⊆ excluded_letters (master s') ∧
  required_letters (master s) ⊆ required_letters (master s') ∧
  (∀ i c, known_positions (master s) !! i = Some (Some c) →
          ∃ c', known_positions (master s') !! i = Some (Some c')) ∧
  (∀ letter positions, (letter, positions) ∈ forbidden_positions (master s) →
     ∃ extra, (letter, positions ++ extra) ∈ forbidden_positions (master s')) ∧
  (∀ old, possible_words s = Some old →
     ∃ new, possible_words s' = Some new ∧ new `sublist_of` old).

(** * Properties *)

(** ** Indexing *)

Lemma index_in_range (s : str) (i : Z) :
  (0 ≤ i < Z.of_nat (length s))%Z →
  ∃ ch, s !! Z.to_nat i = Some ch ∧ Py.index s i = Ok ch.
Proof.
  intros Hi. unfold Py.index.
  destruct (Z.ltb_spec i 0) as [?|_]; [lia|].
  destruct (Z.leb_spec 0 i) as [_|?]; [|lia].
  destruct (Z.ltb_spec i (Z.of_nat (length s))) as [_|?]; [|lia]. simpl.
  destruct (lookup_lt_is_Some_2 s (Z.to_nat i)) as [ch Hch]; [lia|].
  exists ch. by rewrite Hch.
Qed.

Lemma index_nat (s : str) (i : nat) (ch : char) :
  Py.index s (Z.of_nat i) = Ok ch ↔ s !! i = Some ch.
Proof.
  unfold Py.index.
  destruct (Z.ltb_spec (Z.of_nat i) 0) as [?|_]; [lia|].
  destruct (Z.leb_spec 0 (Z.of_nat i)) as [_|?]; [|lia].
  rewrite Nat2Z.id.
  destruct (Z.ltb_spec (Z.of_nat i) (Z.of_nat (length s))) as [Hlt|Hge]; simpl.
  - destruct (s !! i) as [c|] eqn:E; split; intros H; by simplify_eq.
  - rewrite lookup_ge_None_2 by lia. split; intros H; by simplify_eq.
Qed.

(** ** The loops of [check_word] *)

Lemma bind_Ok {A B} (m : result A) (k : A → result B) (b : B) :
  m ≫= k = Ok b ↔ ∃ a, m = Ok a ∧ k a = Ok b.
Proof.
  destruct m as [a|e]; simpl; split.
  - intros H. by exists a.
  - by intros (a' & [= ->] & H).
  - intros H. discriminate H.
  - by intros (a' & [=] & _).
Qed.

Lemma check_known_true (word : str) (known : list (option char)) (i : nat) :
  check_known word i known = Ok true ↔
  ∀ j c, known !! j = Some (Some c) → word !! (i + j) = Some c.
Proof.
  revert i. induction known as [|[c|] rest IH]; intros i; simpl.
  - split; [intros _ j c H; by rewrite lookup_nil in H | done].
  - destruct (Py.index word (Z.of_nat i)) as [ch|e] eqn:E; simpl.
    + apply index_nat in E. destruct (decide (ch ≠ c)) as [Hne|Heq].
      * split; [done|]. intros H. specialize (H 0 c eq_refl).
        rewrite Nat.add_0_r in H. congruence.
      * apply dec_stable in Heq as ->. rewrite IH. split.
        -- intros H [|j] c' Hj; simpl in Hj.
           ++ simplify_eq. by rewrite Nat.add_0_r.
           ++ replace (i + S j) with (S i + j) by lia. by apply H.
        -- intros H j c' Hj. replace (S i + j) with (i + S j) by lia. by apply H.
    + split; [done|]. intros H. specialize (H 0 c eq_refl).
      rewrite Nat.add_0_r in H. apply index_nat in H. congruence.
  - rewrite IH. split.
    + intros H [|j] c' Hj; simpl in Hj; [done|].
      replace (i + S j) with (S i + j) by lia. by apply H.
    + intros H j c' Hj. replace (S i + j) with (i + S j) by lia. by apply H.
Qed.

Lemma check_known_returns (word : str) (known : list (option char)) (i : nat) :
  i + length known ≤ length word → ∃ b, check_known word i known = Ok b.
Proof.
  revert i. induction known as [|[c|] rest IH]; intros i Hlen; simpl in *.
  - by exists true.
  - destruct (index_in_range word (Z.of_nat i)) as (ch & _ & ->); [lia|]. simpl.
    destruct (decide (ch ≠ c)); [by exists false|]. apply IH. lia.
  - apply IH. lia.
Qed.

Lemma check_positions_true (word letter : str) (positions : list Z) :
  check_positions word letter positions = Ok true ↔
  ∀ pos, pos ∈ positions → (pos < Z.of_nat (length word))%Z →
         ∃ ch, Py.index word pos = Ok ch ∧ [ch] ≠ letter.
Proof.
  induction positions as [|pos rest IH]; simpl.
  - split; [intros _ pos H; by apply elem_of_nil in H | done].
  - destruct (Z.ltb_spec pos (Z.of_nat (length word))) as [Hlt|Hge].
    + destruct (Py.index word pos) as [ch|e] eqn:E; simpl.
      * destruct (decide ([ch] = letter)) as [Heq|Hne].
        -- split; [done|]. intros H.
           destruct (H pos) as (ch' & Hch' & Hne); [left|done|]. congruence.
        -- rewrite IH. split.
           ++ intros H p [->|Hp]%elem_of_cons Hp'; [by exists ch | by apply H].
           ++ intros H p Hp. apply H. by right.
      * split; [done|]. intros H.
        destruct (H pos) as (ch' & Hch' & _); [left|done|]. congruence.
    + rewrite IH. split.
      * intros H p [->|Hp]%elem_of_cons Hp'; [lia | by apply H].
      * intros H p Hp. apply H. by right.
Qed.

Lemma check_positions_returns (word letter : str) (positions : list Z) :
  Forall (λ pos, 0 ≤ pos)%Z positions → ∃ b, check_positions word letter positions = Ok b.
Proof.
  induction 1 as [|pos rest Hpos _ IH]; simpl; [by exists true|].
  destruct (Z.ltb_spec pos (Z.of_nat (length word))) as [Hlt|Hge]; [|done].
  destruct (index_in_range word pos) as (ch & _ & ->); [lia|]. simpl.
  destruct (decide ([ch] = letter)); [by exists false | done].
Qed.

Lemma check_forbidden_true (word : str) (d : dict) :
  check_forbidden word d = Ok true ↔
  ∀ letter positions, (letter, positions) ∈ d →
                      check_positions word letter positions = Ok true.
Proof.
  induction d as [|[letter positions] rest IH]; simpl.
  - split; [intros _ l p H; by apply elem_of_nil in H | done].
  - destruct (check_positions word letter positions) as [[]|e] eqn:E; simpl.
    + rewrite IH. split.
      * intros H l p [[= -> ->]|Hin]%elem_of_cons; [done | by apply H].
      * intros H l p Hin. apply H. by right.
    + split; [done|]. intros H. specialize (H letter positions). rewrite E in H.
      discriminate H. left.
    + split; [done|]. intros H. specialize (H letter positions). rewrite E in H.
      discriminate H. left.
Qed.

Lemma check_forbidden_returns (word : str) (d : dict) :
  positions_nonneg d → ∃ b, check_forbidden word d = Ok b.
Proof.
  induction d as [|[letter positions] rest IH]; intros Hd; simpl; [by exists true|].
  destruct (check_positions_returns word letter positions) as [b ->].
  { apply Forall_forall. intros pos Hpos. eapply Hd; [left|done]. }
  simpl. destruct b; [|by exists false].
  apply IH. intros l p pos Hin Hpos. eapply Hd; [by right|done].
Qed.

Lemma check_combos_true (word : str) (combos : gset str) (indices : list nat) :
  check_combos word combos indices = true ↔
  ∀ i, i ∈ indices → Py.lower (Py.slice word i (i + 2)) ∉ combos.
Proof.
  induction indices as [|i rest IH]; simpl.
  - split; [intros _ i H; by apply elem_of_nil in H | done].
  - destruct (decide (Py.lower (Py.slice word i (i + 2)) ∈ combos)) as [Hin|Hout].
    + split; [done|]. intros H. exfalso. by apply (H i); [left|].
    + rewrite IH. split.
      * intros H j [->|Hj]%elem_of_cons; [done | by apply H].
      * intros H j Hj. apply H. by right.
Qed.

Lemma elem_of_range (i : nat) (n : Z) : i ∈ Py.range n ↔ (Z.of_nat i < n)%Z.
Proof. unfold Py.range. rewrite elem_of_seq. lia. Qed.

Lemma excluded_scan (word : str) (excluded : gset char) :
  existsb (λ ch, bool_decide (ch ∈ excluded)) word = false ↔
  ∀ ch, ch ∈ word → ch ∉ excluded.
Proof.
  induction word as [|c rest IH]; simpl.
  - split; [intros _ ch H; by apply elem_of_nil in H | done].
  - rewrite orb_false_iff, IH, bool_decide_eq_false. split.
    + intros [Hc H] ch [->|Hch]%elem_of_cons; [done | by apply H].
    + intros H. split; [apply H; left | intros ch Hch; apply H; by right].
Qed.

Lemma required_scan (word : str) (required : gset char) :
  forallb (λ ch, bool_decide (ch ∈ word)) (elements required) = true ↔
  ∀ ch, ch ∈ required → ch ∈ word.
Proof.
  rewrite forallb_forall. split.
  - intros H ch Hch. eapply bool_decide_eq_true, H, list_elem_of_In.
    by apply elem_of_elements.
  - intros H ch Hch. apply bool_decide_eq_true, H, elem_of_elements.
    by apply list_elem_of_In.
Qed.

(** What a [True] result of [check_word] means, whatever the arguments. *)
Lemma check_word_true (word : str) (excluded required : gset char)
    (known : list (option char)) (d : dict) (lexicon combos : option (gset str)) :
  check_word word excluded required known d lexicon combos = Ok true ↔
  (∀ lex, lexicon = Some lex → word ∈ lex) ∧
  (∀ ch, ch ∈ word → ch ∉ excluded) ∧
  (∀ ch, ch ∈ required → ch ∈ word) ∧
  check_known word 0 known = Ok true ∧
  check_forbidden word d = Ok true ∧
  (∀ pairs i, combos = Some pairs → i + 1 < length word →
              Py.lower (Py.slice word i (i + 2)) ∉ pairs).
Proof.
  unfold check_word.
  assert (Hlex : match lexicon with Some lex => bool_decide (word ∉ lex) | None => false end
                 = false ↔ ∀ lex, lexicon = Some lex → word ∈ lex).
  { destruct lexicon as [lex|].
    - rewrite bool_decide_eq_false. split.
      + intros H lex' [= <-]. by apply dec_stable.
      + intros H Hn. by apply Hn, H.
    - split; [by intros _ lex [=] | done]. }
  destruct (match lexicon with Some _ => _ | None => _ end).
  { split; [done|]. intros [H _]. by apply Hlex in H. }
  destruct (existsb _ word) eqn:Hex.
  { split; [done|]. intros (_ & H & _). rewrite <- excluded_scan in H. congruence. }
  destruct (forallb _ (elements required)) eqn:Hreq; simpl.
  2:{ split; [done|]. intros (_ & _ & H & _). rewrite <- required_scan in H. congruence. }
  rewrite excluded_scan in Hex. rewrite required_scan in Hreq.
  destruct (check_known word 0 known) as [[]|e]; simpl.
  2,3: split; [done | by intros (_ & _ & _ & ? & _)].
  destruct (check_forbidden word d) as [[]|e]; simpl.
  2,3: split; [done | by intros (_ & _ & _ & _ & ? & _)].
  assert (Hrange : ∀ i, i ∈ Py.range (Z.of_nat (length word) - 1) ↔ i + 1 < length word).
  { intros i. rewrite elem_of_range. lia. }
  destruct combos as [pairs|].
  - destruct (decide (pairs ≠ ∅)) as [Hne|He].
    + split.
      * intros [= H]. rewrite check_combos_true in H.
        repeat split; try done; [by apply Hlex|].
        intros pairs' i [= <-] Hi. by apply H, Hrange.
      * intros (_ & _ & _ & _ & _ & H). f_equal. apply check_combos_true.
        intros i Hi. apply H; [done | by apply Hrange].
    + apply dec_stable in He as ->. split; [|done]. intros _.
      repeat split; try done; [by apply Hlex|].
      intros pairs' i [= <-] _. apply not_elem_of_empty.
  - split; [|done]. intros _. repeat split; try done. by apply Hlex.
Qed.

(** [check_word] returns a boolean when the word is as long as the list of
    known positions and no forbidden position is negative. *)
Lemma check_word_returns (word : str) (excluded required : gset char)
    (known : list (option char)) (d : dict) (lexicon combos : option (gset str)) :
  length known ≤ length word → positions_nonneg d →
  ∃ b, check_word word excluded required known d lexicon combos = Ok b.
Proof.
  intros Hlen Hd. unfold check_word.
  destruct (match lexicon with Some _ => _ | None => _ end); [by exists false|].
  destruct (existsb _ word); [by exists false|].
  destruct (negb _); [by exists false|].
  destruct (check_known_returns word known 0) as [b ->]; [lia|]. simpl.
  destruct b; simpl; [|by exists false].
  destruct (check_forbidden_returns word d Hd) as [b ->]. simpl.
  destruct b; simpl; [|by exists false].
  destruct combos as [pairs|]; [|by exists true].
  destruct (decide (pairs ≠ ∅)); eauto.
Qed.

Lemma lower_cons (c : char) (s : str) :
  Py.lower (c :: s) = Py.lower_char c ++ Py.lower s.
Proof. done. Qed.

(** A string is its own lowercase form exactly when each of its characters is. *)
Lemma lower_fixed (s : str) :
  Py.lower s = s ↔ Forall (λ c, Py.lower_char c = [c]) s.
Proof.
  induction s as [|c s IH]; [done|]. rewrite lower_cons, Forall_cons, <- IH.
  destruct c as [a| |]; simpl; [|split; [done | by intros [? _]]|].
  - split; [intros [= -> ->] | intros [[= ->] ->]]; done.
  - split; [intros [= ->] | intros [_ ->]]; done.
Qed.

Lemma lower_slice (s : str) (i j : nat) :
  Py.lower s = s → Py.lower (Py.slice s i j) = Py.slice s i j.
Proof.
  rewrite !lower_fixed. intros Hs. unfold Py.slice.
  by apply Forall_take, Forall_drop.
Qed.

(** With non-negative positions the forbidden-position loop checks exactly
    the listed positions that lie inside the word. *)
Lemma check_forbidden_nonneg (word : str) (d : dict) :
  positions_nonneg d →
  check_forbidden word d = Ok true ↔
  ∀ letter positions pos ch,
    (letter, positions) ∈ d → pos ∈ positions →
    (0 ≤ pos < Z.of_nat (length word))%Z →
    word !! Z.to_nat pos = Some ch → [ch] ≠ letter.
Proof.
  intros Hd. rewrite check_forbidden_true. split.
  - intros H letter positions pos ch Hin Hpos Hrange Hch.
    apply H in Hin. rewrite check_positions_true in Hin.
    destruct (Hin pos Hpos) as (ch' & Hch' & Hne); [lia|].
    destruct (index_in_range word pos Hrange) as (ch'' & ? & ?). congruence.
  - intros H letter positions Hin. apply check_positions_true. intros pos Hpos Hlt.
    destruct (index_in_range word pos) as (ch & Hch & Hidx).
    { split; [by eapply Hd | done]. }
    exists ch. split; [done|]. by eapply H; [..|split; [by eapply Hd | done]|]; eauto.
Qed.

(** ** [wordl.py] runs the same checks *)

Lemma wordl_check_known (cfg : Wordl.config) (word : str) (n i : nat) :
  i + n ≤ length (Wordl.known_positions cfg) →
  Wordl.check_known cfg word (seq i n)
  = check_known word i (take n (drop i (Wordl.known_positions cfg))).
Proof.
  revert i. induction n as [|n IH]; intros i Hlen; simpl.
  - done.
  - destruct (lookup_lt_is_Some_2 (Wordl.known_positions cfg) i) as [x Hx]; [lia|].
    rewrite Hx, (drop_S _ _ _ Hx). simpl.
    destruct x as [c|]; [|apply IH; lia].
    destruct (Py.index word (Z.of_nat i)) as [ch|e]; simpl; [|done].
    destruct (decide (ch ≠ c)); [done|]. apply IH. lia.
Qed.

Lemma wordl_check_positions (cfg : Wordl.config) (word letter : str) (positions : list Z) :
  Z.of_nat (length word) = Wordl.word_length cfg →
  Wordl.check_positions cfg word letter positions = check_positions word letter positions.
Proof.
  intros Hlen. induction positions as [|pos rest IH]; simpl; [done|].
  rewrite Hlen, IH. done.
Qed.

Lemma wordl_check_forbidden (cfg : Wordl.config) (word : str) (d : dict) :
  Z.of_nat (length word) = Wordl.word_length cfg →
  Wordl.check_forbidden cfg word d = check_forbidden word d.
Proof.
  intros Hlen. induction d as [|[letter positions] rest IH]; simpl; [done|].
  by rewrite wordl_check_positions, IH.
Qed.

(** On a word of the configured length, [wordl.check_word] returns the word
    exactly when [protableword.check_word], given the configured constraints
    and no illegal pairs, returns [True]. *)
Lemma wordl_check_word (cfg : Wordl.config) (word : str) (dictionary : option (gset str)) :
  Z.of_nat (length word) = Wordl.word_length cfg →
  length (Wordl.known_positions cfg) = length word →
  Wordl.check_word cfg word dictionary
  = (keep ← word_predicate word (constraints_of cfg)
               (if Wordl.USE_DICTIONARY cfg then dictionary else None) None;
     Ok (if keep : bool then Some word else None)).
Proof.
  intros Hwl Hknown. unfold Wordl.check_word, word_predicate, check_word. simpl.
  assert (Hdict : Wordl.USE_DICTIONARY cfg &&
             match dictionary with Some d => bool_decide (word ∉ d) | None => false end
           = match (if Wordl.USE_DICTIONARY cfg then dictionary else None) with
             | Some d => bool_decide (word ∉ d) | None => false end).
  { by destruct (Wordl.USE_DICTIONARY cfg). }
  rewrite Hdict. clear Hdict.
  destruct (match (if Wordl.USE_DICTIONARY cfg then dictionary else None) with
            | Some _ => _ | None => _ end); [done|].
  assert (Hex : bool_decide (Wordl.excluded_letters cfg ≠ ∅) &&
             existsb (λ ch, bool_decide (ch ∈ Wordl.excluded_letters cfg)) word
           = existsb (λ ch, bool_decide (ch ∈ Wordl.excluded_letters cfg)) word).
  { case_bool_decide as He; [done|]. simpl. symmetry. apply excluded_scan.
    intros ch _. rewrite He. apply not_elem_of_empty. }
  rewrite Hex. clear Hex.
  destruct (existsb _ word); [done|].
  assert (Hreq : bool_decide (Wordl.required_letters cfg ≠ ∅) &&
             negb (forallb (λ ch, bool_decide (ch ∈ word))
                           (elements (Wordl.required_letters cfg)))
           = negb (forallb (λ ch, bool_decide (ch ∈ word))
                           (elements (Wordl.required_letters cfg)))).
  { case_bool_decide as He; [done|]. rewrite He. by rewrite elements_empty. }
  rewrite Hreq. clear Hreq.
  destruct (negb _); [done|].
  unfold Py.range. rewrite <- Hwl, Nat2Z.id, <- Hknown.
  rewrite wordl_check_known by (simpl; lia).
  rewrite drop_0, firstn_all.
  destruct (check_known word 0 (Wordl.known_positions cfg)) as [[]|e]; simpl; [|done..].
  rewrite wordl_check_forbidden by done.
  by destruct (check_forbidden word (Wordl.forbidden_positions cfg)) as [[]|e].
Qed.

(** ** The word predicate *)

Lemma word_predicate_true (word : str) (c : constraints)
    (lexicon illegal_pairs : option (gset str)) :
  positions_nonneg (forbidden_positions c) →
  (∀ pairs, illegal_pairs = Some pairs → lowercase word) →
  word_predicate word c lexicon illegal_pairs = Ok true ↔
  admissible word c lexicon illegal_pairs.
Proof.
  intros Hpos Hlow. unfold word_predicate. rewrite check_word_true. split.
  - intros (Hlex & Hex & Hreq & Hknown & Hforb & Hpairs). split; try done.
    + intros i ch Hi.
      by apply (proj1 (check_known_true word (known_positions c) 0) Hknown i ch).
    + by apply check_forbidden_nonneg.
    + intros pairs i -> Hi. specialize (Hpairs pairs i eq_refl Hi).
      by rewrite lower_slice in Hpairs by (by apply (Hlow pairs)).
  - intros [Hlex Hex Hreq Hknown Hforb Hpairs]. repeat split; try done.
    + apply check_known_true. intros j ch Hj. by apply Hknown.
    + by apply check_forbidden_nonneg.
    + intros pairs i -> Hi. rewrite lower_slice by (by apply (Hlow pairs)).
      by apply Hpairs.
Qed.

(** C1, as amended: on a lowercase word of the configured length, and with
    forbidden positions that are non-negative indices, the word predicate
    returns a boolean, and it returns [True] if and only if the six
    conditions hold: lexicon membership when a lexicon is given, no excluded
    letter, every required letter, every fixed position matched, no letter at
    one of its forbidden in-range positions, and no illegal adjacent pair when
    pairs are given.  [wordl.check_word], which has no pair check, returns
    the word under the same conditions and [None] otherwise. *)
Theorem word_predicate_admissible :
  (∀ (word : str) (c : constraints) (lexicon illegal_pairs : option (gset str)),
     length word = length (known_positions c) →
     lowercase word →
     positions_nonneg (forbidden_positions c) →
     ∃ b, word_predicate word c lexicon illegal_pairs = Ok b ∧
          (b = true ↔ admissible word c lexicon illegal_pairs)) ∧
  (∀ (cfg : Wordl.config) (word : str) (dictionary : option (gset str)),
     Z.of_nat (length word) = Wordl.word_length cfg →
     length word = length (Wordl.known_positions cfg) →
     positions_nonneg (Wordl.forbidden_positions cfg) →
     ∃ r, Wordl.check_word cfg word dictionary = Ok r ∧
          (r = Some word ∨ r = None) ∧
          (r = Some word ↔
           admissible word (constraints_of cfg)
             (if Wordl.USE_DICTIONARY cfg then dictionary else None) None)).
Proof.
  split.
  - intros word c lexicon illegal_pairs Hlen Hlow Hpos.
    destruct (check_word_returns word (excluded_letters c) (required_letters c)
                (known_positions c) (forbidden_positions c) lexicon illegal_pairs)
      as [b Hb]; [lia | done |].
    exists b. split; [done|].
    rewrite <- word_predicate_true by done. unfold word_predicate. rewrite Hb.
    split; intros H; by simplify_eq.
  - intros cfg word dictionary Hwl Hlen Hpos.
    rewrite wordl_check_word by done.
    set (lexicon := if Wordl.USE_DICTIONARY cfg then dictionary else None).
    destruct (check_word_returns word (Wordl.excluded_letters cfg)
                (Wordl.required_letters cfg) (Wordl.known_positions cfg)
                (Wordl.forbidden_positions cfg) lexicon None)
      as [b Hb]; [lia | done |].
    exists (if b then Some word else None).
    rewrite <- (word_predicate_true word (constraints_of cfg) lexicon None) by done.
    unfold word_predicate. simpl. rewrite Hb. simpl.
    destruct b; repeat split; try (by right); try (by left); intros H; by simplify_eq.
Qed.

(** The theorem at the configuration of [wordl.py], for both programs. *)
Lemma word_predicate_admissible_witness :
  let c := Constraints (list_to_set (py "spektogh")) (list_to_set (py "au"))
                       [None; None; None; Some (Latin "a"); None] [(py "u", [2%Z])] in
  (∃ b, word_predicate (py "unfad") c None (Some {[py "qz"]}) = Ok b ∧
        (b = true ↔ admissible (py "unfad") c None (Some {[py "qz"]}))) ∧
  (∃ r, Wordl.check_word Wordl.configured (py "unfad") None = Ok r ∧
        (r = Some (py "unfad") ∨ r = None) ∧
        (r = Some (py "unfad") ↔
         admissible (py "unfad") (constraints_of Wordl.configured) None None)).
Proof.
  intros c.
  assert (Hpos : positions_nonneg [(py "u", [2%Z])]).
  { intros letter positions pos Hin%list_elem_of_singleton Hpos. simplify_eq.
    apply list_elem_of_singleton in Hpos. lia. }
  split.
  - apply (proj1 word_predicate_admissible (py "unfad") c None (Some {[py "qz"]}));
      [reflexivity | reflexivity | exact Hpos].
  - apply (proj2 word_predicate_admissible Wordl.configured (py "unfad") None);
      [reflexivity | reflexivity | exact Hpos].
Defined.

(** C1 as stated fails on the code: with the entry [e:-1] every one of the
    six conditions holds for ["abcde"] (position [-1] is not an in-range
    position), yet [check_word] indexes the word from its end and returns
    [False]; with [e:-6] it raises [IndexError] instead of returning. *)
Lemma word_predicate_negative_position :
  let c pos := Constraints ∅ ∅ [None; None; None; None; None] [(py "e", [pos])] in
  length (py "abcde") = length (known_positions (c (-1)%Z)) ∧
  lowercase (py "abcde") ∧
  admissible (py "abcde") (c (-1)%Z) None None ∧
  word_predicate (py "abcde") (c (-1)%Z) None None = Ok false ∧
  admissible (py "abcde") (c (-6)%Z) None None ∧
  word_predicate (py "abcde") (c (-6)%Z) None None = Raise IndexError.
Proof.
  assert (Hadm : ∀ pos, (pos < 0)%Z →
            admissible (py "abcde")
              (Constraints ∅ ∅ [None; None; None; None; None] [(py "e", [pos])]) None None).
  { intros pos Hneg. split; simpl; try done.
    - intros [|[|[|[|[|i]]]]] ch; simpl; by try discriminate.
    - intros letter positions p ch Hin%list_elem_of_singleton Hp. simplify_eq.
      apply list_elem_of_singleton in Hp. lia. }
  simpl. split; [done|]. split; [done|].
  split; [by apply Hadm|]. split; [by vm_compute|].
  split; [by apply Hadm | by vm_compute].
Qed.

(** C2: with the constraints [wordl.py] is configured with, no lexicon and
    no illegal pairs, both programs admit ["unfad"] and reject ["usual"]. *)
Theorem example_unfad_usual :
  let c := Constraints (list_to_set (py "spektogh")) (list_to_set (py "au"))
                       [None; None; None; Some (Latin "a"); None] [(py "u", [2%Z])] in
  word_predicate (py "unfad") c None None = Ok true ∧
  word_predicate (py "usual") c None None = Ok false ∧
  word_predicate (py "unfad") c None (Some ∅) = Ok true ∧
  word_predicate (py "usual") c None (Some ∅) = Ok false ∧
  constraints_of Wordl.configured = c ∧
  Wordl.check_word Wordl.configured (py "unfad") None = Ok (Some (py "unfad")) ∧
  Wordl.check_word Wordl.configured (py "usual") None = Ok None.
Proof. simpl. repeat split; by vm_compute. Qed.

(** ** The words the brute force enumerates *)

Lemma product_length (alphabet : str) (n : nat) :
  Forall (λ w, length w = n) (Py.product alphabet n).
Proof.
  induction n as [|n IH]; simpl.
  - by repeat constructor.
  - apply Forall_bind, Forall_forall. intros c _.
    apply Forall_fmap. eapply Forall_impl; [exact IH|].
    intros w Hw. simpl. by rewrite Hw.
Qed.

(** Every word [wordl.process_chunk] checks has the configured length. *)
Lemma wordl_candidates_length (cfg : Wordl.config) (start_letter : char)
    (words : list str) :
  Wordl.candidates cfg start_letter = Ok words →
  Forall (λ w, Z.of_nat (length w) = Wordl.word_length cfg) words.
Proof.
  unfold Wordl.candidates.
  destruct (Z.ltb_spec (Wordl.word_length cfg - 1) 0) as [|Hwl]; [done|].
  intros [= <-]. apply Forall_fmap.
  eapply Forall_impl; [apply product_length|].
  intros w Hw. simpl. rewrite Hw. lia.
Qed.

(** ** Forbidden positions beyond the end of the word *)

Lemma check_positions_skip (word letter : str) (before after : list Z) (pos : Z) :
  (Z.of_nat (length word) ≤ pos)%Z →
  check_positions word letter (before ++ pos :: after)
  = check_positions word letter (before ++ after).
Proof.
  intros Hpos. induction before as [|p before IH]; simpl.
  - by destruct (Z.ltb_spec pos (Z.of_nat (length word))); [lia|].
  - by rewrite IH.
Qed.

Lemma check_forbidden_skip (word : str) (d1 d2 : dict) (letter : str)
    (before after : list Z) (pos : Z) :
  (Z.of_nat (length word) ≤ pos)%Z →
  check_forbidden word (d1 ++ (letter, before ++ pos :: after) :: d2)
  = check_forbidden word (d1 ++ (letter, before ++ after) :: d2).
Proof.
  intros Hpos. induction d1 as [|[l ps] d1 IH]; simpl.
  - by rewrite check_positions_skip.
  - by rewrite IH.
Qed.

Lemma wordl_check_known_forbidden (cfg : Wordl.config) (d : dict) (word : str)
    (indices : list nat) :
  Wordl.check_known (with_forbidden cfg d) word indices = Wordl.check_known cfg word indices.
Proof. induction indices as [|i rest IH]; simpl; [done|]. by rewrite IH. Qed.

Lemma wordl_check_forbidden_cfg (cfg : Wordl.config) (d d' : dict) (word : str) :
  Wordl.check_forbidden (with_forbidden cfg d) word d' = Wordl.check_forbidden cfg word d'.
Proof.
  assert (Hsame : ∀ l ps, Wordl.check_positions (with_forbidden cfg d) word l ps
                          = Wordl.check_positions cfg word l ps).
  { intros l ps. induction ps as [|p ps IH]; simpl; [done|]. by rewrite IH. }
  induction d' as [|[l ps] d' IH]; simpl; [done|]. by rewrite Hsame, IH.
Qed.

Lemma wordl_check_forbidden_skip (cfg : Wordl.config) (d1 d2 : dict) (word letter : str)
    (before after : list Z) (pos : Z) :
  (Wordl.word_length cfg ≤ pos)%Z →
  Wordl.check_forbidden cfg word (d1 ++ (letter, before ++ pos :: after) :: d2)
  = Wordl.check_forbidden cfg word (d1 ++ (letter, before ++ after) :: d2).
Proof.
  intros Hpos.
  assert (Hskip : Wordl.check_positions cfg word letter (before ++ pos :: after)
                  = Wordl.check_positions cfg word letter (before ++ after)).
  { induction before as [|p before IH]; simpl.
    - by destruct (Z.ltb_spec pos (Wordl.word_length cfg)); [lia|].
    - by rewrite IH. }
  induction d1 as [|[l ps] d1 IH]; simpl.
  - by rewrite Hskip.
  - by rewrite IH.
Qed.

(** C10: a forbidden position at or beyond the end of the word is skipped by
    the bounds check before the word is indexed.  On its own it passes the
    check without a rejection and without an exception, and listing it
    anywhere among the forbidden positions changes nothing in what
    [check_word] returns or raises, in both programs. *)
Theorem out_of_range_position_ignored (word : str) (pos : Z) :
  (Z.of_nat (length word) ≤ pos)%Z →
  (∀ letter, check_positions word letter [pos] = Ok true) ∧
  (∀ excluded required known d1 letter before after d2 lexicon combos,
     check_word word excluded required known
       (d1 ++ (letter, before ++ pos :: after) :: d2) lexicon combos
     = check_word word excluded required known
         (d1 ++ (letter, before ++ after) :: d2) lexicon combos) ∧
  (∀ cfg d1 letter before after d2 dictionary,
     Z.of_nat (length word) = Wordl.word_length cfg →
     Wordl.check_word (with_forbidden cfg (d1 ++ (letter, before ++ pos :: after) :: d2))
       word dictionary
     = Wordl.check_word (with_forbidden cfg (d1 ++ (letter, before ++ after) :: d2))
         word dictionary).
Proof.
  intros Hpos. repeat split.
  - intros letter. simpl. by destruct (Z.ltb_spec pos (Z.of_nat (length word))); [lia|].
  - intros. unfold check_word. by rewrite check_forbidden_skip.
  - intros cfg d1 letter before after d2 dictionary Hwl. unfold Wordl.check_word. simpl.
    rewrite !wordl_check_known_forbidden, !wordl_check_forbidden_cfg.
    by rewrite wordl_check_forbidden_skip by lia.
Qed.

Lemma out_of_range_position_ignored_witness :
  check_positions (py "usual") (py "u") [5%Z] = Ok true ∧
  check_word (py "usual") ∅ ∅ [] [(py "u", [5%Z; 2%Z])] None None
  = check_word (py "usual") ∅ ∅ [] [(py "u", [2%Z])] None None ∧
  Wordl.check_word (with_forbidden Wordl.configured [(py "u", [2%Z; 5%Z])])
    (py "usual") None
  = Wordl.check_word (with_forbidden Wordl.configured [(py "u", [2%Z])])
      (py "usual") None.
Proof.
  destruct (out_of_range_position_ignored (py "usual") 5%Z) as (H1 & H2 & H3).
  - simpl. lia.
  - split; [apply H1|]. split.
    + apply (H2 ∅ ∅ [] [] (py "u") [] [2%Z] [] None None).
    + apply (H3 Wordl.configured [] (py "u") [2%Z] [] [] None). reflexivity.
Defined.

(** ** The filter driver *)

Section Filter.

Context (c : constraints) (lexicon combos : option (gset str)).

Local Abbreviation filtered := (filter_with c lexicon combos).
Local Abbreviation admitted := (λ w : str, word_predicate w c lexicon combos = Ok true).

Lemma bind_ret {A} (m : result A) : (m ≫= λ a, Ok a) = m.
Proof. by destruct m. Qed.

Lemma filter_with_cons (w : str) (l : list str) :
  filtered (w :: l)
  = (keep ← word_predicate w c lexicon combos; kept ← filtered l;
     Ok (if keep : bool then w :: kept else kept)).
Proof. reflexivity. Qed.

Lemma filter_with_app (l1 l2 : list str) :
  filtered (l1 ++ l2) = (r1 ← filtered l1; r2 ← filtered l2; Ok (r1 ++ r2)).
Proof.
  induction l1 as [|w l1 IH].
  - simpl. by rewrite bind_ret.
  - rewrite <- app_comm_cons, !filter_with_cons, IH.
    destruct (word_predicate w c lexicon combos) as [keep|e]; simpl; [|done].
    destruct (filtered l1) as [r1|e]; simpl; [|done].
    destruct (filtered l2) as [r2|e]; simpl; [|done].
    by destruct keep.
Qed.

(** Filtering chunk by chunk and concatenating is filtering the
    concatenation of the chunks. *)
Lemma filter_chunks_concat (chunks : list (list str)) :
  filter_chunks c lexicon combos chunks = filtered (concat chunks).
Proof.
  unfold filter_chunks. induction chunks as [|chunk chunks IH]; [done|].
  simpl. rewrite filter_with_app, <- IH.
  destruct (filtered chunk) as [r1|e]; simpl; [|done].
  by destruct (mapM filtered chunks) as [rs|e].
Qed.

(** Where the predicate returns on every candidate, the list
    comprehension is the order-preserving [filter]. *)
Lemma filter_with_filter (l : list str) :
  Forall (λ w, ∃ b, word_predicate w c lexicon combos = Ok b) l →
  filtered l = Ok (filter admitted l).
Proof.
  induction 1 as [|w l [b Hb] _ IH]; [done|].
  rewrite filter_with_cons, Hb, IH. simpl. destruct b.
  - by rewrite filter_cons_True.
  - by rewrite filter_cons_False by (rewrite Hb; discriminate).
Qed.

Lemma filter_with_idempotent (l : list str) :
  (filtered l ≫= filtered) = filtered l.
Proof.
  induction l as [|w l IH]; [done|].
  rewrite filter_with_cons.
  destruct (word_predicate w c lexicon combos) as [keep|e] eqn:Hw; simpl; [|done].
  destruct (filtered l) as [kept|e]; simpl in *; [|done].
  destruct keep; [|done].
  by rewrite filter_with_cons, Hw, IH.
Qed.

(** The output keeps the order of the candidates and adds no word. *)
Lemma filter_with_sublist (l out : list str) :
  filtered l = Ok out → out `sublist_of` l.
Proof.
  revert out. induction l as [|w l IH]; intros out.
  - by intros [= <-].
  - rewrite filter_with_cons.
    intros (keep & _ & (kept & Hkept & [= <-])%bind_Ok)%bind_Ok.
    destruct keep; [apply sublist_skip | apply sublist_cons]; by apply IH.
Qed.

End Filter.

Lemma slices_concat {A} (l : list A) (size count : nat) :
  concat ((λ i, Py.slice l i (i + size)) <$> ((λ k, k * size) <$> seq 0 count))
  = take (count * size) l.
Proof.
  induction count as [|count IH]; [done|].
  rewrite seq_S, !fmap_app, concat_app, IH. simpl.
  unfold Py.slice. rewrite app_nil_r.
  replace (count * size + size - count * size) with size by lia.
  rewrite take_take_drop. f_equal. lia.
Qed.

(** The chunks of lines 145-146 are consecutive slices that cover the list. *)
Lemma chunks_of_concat (cpu_count : positive) (words : list str) :
  concat (chunks_of cpu_count words) = words.
Proof.
  unfold chunks_of, Py.range_step.
  set (size := max 1 (length words / Pos.to_nat cpu_count)).
  rewrite slices_concat. apply take_ge.
  assert (1 ≤ size) by lia.
  pose proof (Nat.div_mod_eq (length words + size - 1) size).
  pose proof (Nat.mod_upper_bound (length words + size - 1) size). nia.
Qed.

(** C3: for every candidate list and every way of cutting it into
    consecutive chunks, the concatenation of the chunk outputs, in chunk
    order, is the output of filtering the whole list in one pass (the same
    words in the same order, or the same exception); the chunks [main]
    builds are such a cut, and where the predicate returns on every
    candidate the output is the sublist of the admitted candidates. *)
Theorem chunked_filter_is_sequential (c : constraints)
    (lexicon combos : option (gset str)) (candidates : list str) :
  (∀ chunks : list (list str),
     concat chunks = candidates →
     filter_chunks c lexicon combos chunks = filter_with c lexicon combos candidates) ∧
  (∀ cpu_count : positive,
     concat (chunks_of cpu_count candidates) = candidates ∧
     filter_chunks c lexicon combos (chunks_of cpu_count candidates)
     = filter_with c lexicon combos candidates) ∧
  (Forall (λ w, ∃ b, word_predicate w c lexicon combos = Ok b) candidates →
   ∀ chunks : list (list str),
     concat chunks = candidates →
     filter_chunks c lexicon combos chunks
     = Ok (filter (λ w, word_predicate w c lexicon combos = Ok true) candidates)).
Proof.
  repeat split.
  - intros chunks <-. apply filter_chunks_concat.
  - apply chunks_of_concat.
  - by rewrite filter_chunks_concat, chunks_of_concat.
  - intros Hall chunks <-. rewrite filter_chunks_concat. by apply filter_with_filter.
Qed.

Lemma chunked_filter_is_sequential_witness :
  let c := Constraints (list_to_set (py "spektogh")) (list_to_set (py "au"))
                       [None; None; None; Some (Latin "a"); None] [(py "u", [2%Z])] in
  let candidates := [py "unfad"; py "usual"; py "quean"; py "uvula"] in
  let chunks := [[py "unfad"; py "usual"]; []; [py "quean"; py "uvula"]] in
  filter_chunks c None (Some ∅) chunks = filter_with c None (Some ∅) candidates ∧
  filter_chunks c None (Some ∅) chunks
  = Ok (filter (λ w, word_predicate w c None (Some ∅) = Ok true) candidates).
Proof.
  intros c candidates chunks.
  destruct (chunked_filter_is_sequential c None (Some ∅) candidates)
    as (Hany & _ & Hfilter).
  split.
  - apply Hany. reflexivity.
  - apply Hfilter; [|reflexivity].
    repeat constructor; [exists true | exists false | exists false | exists false];
      by vm_compute.
Defined.

(** C5: filtering the output of the filter again, with the same
    constraints, gives that output back; this holds for [filter_chunk] on
    one list and for the chunked driver, whatever the chunking of either
    pass. *)
Theorem filter_idempotent (c : constraints) (lexicon combos : option (gset str))
    (candidates : list str) :
  (filter_with c lexicon combos candidates ≫= filter_with c lexicon combos)
  = filter_with c lexicon combos candidates ∧
  (∀ cpu_count cpu_count' : positive,
     (filter_chunks c lexicon combos (chunks_of cpu_count candidates)
      ≫= λ survivors, filter_chunks c lexicon combos (chunks_of cpu_count' survivors))
     = filter_chunks c lexicon combos (chunks_of cpu_count candidates)).
Proof.
  split; [apply filter_with_idempotent|].
  intros cpu_count cpu_count'.
  rewrite filter_chunks_concat, chunks_of_concat.
  rewrite <- (filter_with_idempotent c lexicon combos candidates) at 2.
  destruct (filter_with c lexicon combos candidates) as [survivors|e]; simpl; [|done].
  by rewrite filter_chunks_concat, chunks_of_concat.
Qed.

(** ** The constraint merge *)

Lemma merge_known_lookup (indices : list nat) (known master merged : list (option char)) :
  merge_known indices known master = Ok merged →
  length merged = length master ∧
  ∀ j, merged !! j = master !! j ∨
       ∃ c, j ∈ indices ∧ known !! j = Some (Some c) ∧ merged !! j = Some (Some c).
Proof.
  revert master. induction indices as [|i rest IH]; intros master; simpl.
  - intros [= ->]. split; [done|]. by left.
  - destruct (known !! i) as [[c|]|] eqn:Hi; [| |done].
    + destruct (decide (i < length master)) as [Hlt|]; [|done].
      intros [Hlen H]%IH. rewrite length_insert in Hlen. split; [done|].
      intros j. destruct (H j) as [Hj|(c' & Hin & Hk & Hm)].
      * destruct (decide (i = j)) as [->|Hne].
        -- right. exists c. rewrite Hj, list_lookup_insert_eq by done.
           repeat split; [left | done].
        -- left. by rewrite Hj, list_lookup_insert_ne.
      * right. exists c'. repeat split; [by right | done..].
    + intros [Hlen H]%IH. split; [done|].
      intros j. destruct (H j) as [Hj|(c' & Hin & Hk & Hm)]; [by left|].
      right. exists c'. repeat split; [by right | done..].
Qed.

Lemma merge_known_returns (indices : list nat) (known master : list (option char)) :
  Forall (λ i, i < length known ∧ i < length master) indices →
  ∃ merged, merge_known indices known master = Ok merged.
Proof.
  revert master. induction indices as [|i rest IH]; intros master Hall; simpl.
  - by exists master.
  - apply Forall_cons in Hall as [[Hk Hm] Hall].
    destruct (lookup_lt_is_Some_2 known i Hk) as [[c|] ->].
    + rewrite decide_True by done. apply IH.
      eapply Forall_impl; [done|]. intros j. by rewrite length_insert.
    + by apply IH.
Qed.

Lemma dict_extend_entries (d : dict) (letter : str) (positions : list Z)
    (l : str) (ps : list Z) :
  (l, ps) ∈ d → ∃ extra, (l, ps ++ extra) ∈ dict_extend d letter positions.
Proof.
  induction d as [|[k v] d IH]; simpl; [by intros ?%elem_of_nil|].
  intros [[= -> ->]|Hin]%elem_of_cons.
  - destruct (decide (k = letter)).
    + exists positions. left.
    + exists []. rewrite app_nil_r. left.
  - destruct (decide (k = letter)).
    + exists []. rewrite app_nil_r. by right.
    + destruct (IH Hin) as [extra Hextra]. exists extra. by right.
Qed.

(** Merging only lengthens the position lists of the letters already there. *)
Lemma merge_forbidden_entries (master turn : dict) (l : str) (ps : list Z) :
  (l, ps) ∈ master → ∃ extra, (l, ps ++ extra) ∈ merge_forbidden master turn.
Proof.
  unfold merge_forbidden. revert master ps.
  induction turn as [|[k v] turn IH]; intros master ps Hin; simpl.
  - exists []. by rewrite app_nil_r.
  - destruct (dict_extend_entries master k v l ps Hin) as [e1 He1].
    destruct (IH _ _ He1) as [e2 He2].
    exists (e1 ++ e2). by rewrite app_assoc.
Qed.

Lemma check_positions_prefix (word letter : str) (ps extra : list Z) :
  check_positions word letter (ps ++ extra) = Ok true →
  check_positions word letter ps = Ok true.
Proof.
  rewrite !check_positions_true. intros H pos Hpos. apply H, elem_of_app. by left.
Qed.

(** C4: the merge is monotonic.  When the turn names no letter for a
    position other than the one the master constraints already fix there,
    every word the predicate admits under the merged constraints is admitted
    under the constraints before the merge. *)
Theorem merge_monotonic (word_length : Z) (master turn merged : constraints)
    (word : str) (lexicon illegal_pairs : option (gset str)) :
  merge word_length master turn = Ok merged →
  agrees_with master turn →
  word_predicate word merged lexicon illegal_pairs = Ok true →
  word_predicate word master lexicon illegal_pairs = Ok true.
Proof.
  unfold merge. intros (known & Hknown & [= <-])%bind_Ok Hagree.
  apply merge_known_lookup in Hknown as [_ Hknown].
  unfold word_predicate. rewrite !check_word_true. simpl.
  intros (Hlex & Hex & Hreq & Hk & Hf & Hpairs). repeat split; try done.
  - intros ch Hch Hin. apply (Hex ch Hch), elem_of_union. by left.
  - intros ch Hch. apply Hreq, elem_of_union. by left.
  - apply check_known_true. intros j c Hj.
    rewrite check_known_true in Hk. apply Hk.
    destruct (Hknown j) as [->|(c' & _ & Hturn & ->)]; [done|].
    by rewrite (Hagree j c c' Hj Hturn).
  - apply check_forbidden_true. intros letter positions Hin.
    rewrite check_forbidden_true in Hf.
    destruct (merge_forbidden_entries _ (forbidden_positions turn) _ _ Hin)
      as [extra Hextra].
    eapply check_positions_prefix, Hf, Hextra.
Qed.

Lemma merge_monotonic_witness :
  let master := Constraints (list_to_set (py "spek")) (list_to_set (py "a"))
                            [None; None; None; Some (Latin "a"); None] [(py "u", [2%Z])] in
  let turn := Constraints (list_to_set (py "togh")) (list_to_set (py "u"))
                          [Some (Latin "u"); None; None; Some (Latin "a"); None]
                          [(py "u", [4%Z]); (py "n", [0%Z])] in
  word_predicate (py "unfad") master None (Some ∅) = Ok true.
Proof.
  intros master turn.
  apply (merge_monotonic 5 master turn
           (Constraints (list_to_set (py "spektogh")) (list_to_set (py "au"))
                        [Some (Latin "u"); None; None; Some (Latin "a"); None]
                        [(py "u", [2%Z; 4%Z]); (py "n", [0%Z])])
           (py "unfad") None (Some ∅)).
  - by vm_compute.
  - intros [|[|[|[|[|i]]]]] c c' H1 H2; simpl in *; congruence.
  - by vm_compute.
Defined.

Lemma merge_returns (word_length : Z) (master turn : constraints) :
  length (known_positions master) = Z.to_nat word_length →
  Z.to_nat word_length ≤ length (known_positions turn) →
  ∃ merged, merge word_length master turn = Ok merged.
Proof.
  intros Hmaster Hturn. unfold merge.
  destruct (merge_known_returns (Py.range word_length) (known_positions turn)
              (known_positions master)) as [known ->]; [|by eexists].
  apply Forall_forall. intros i Hi%elem_of_range. lia.
Qed.

(** C6: the merge never unfixes a known position.  With the lists [main]
    works on (a master list of the word length and a turn list at least as
    long) the merge returns; and whenever it returns, a position that held a
    letter still holds one: the letter it held, or the letter the turn fixes
    at that position. *)
Theorem merge_never_unfixes (word_length : Z) (master turn : constraints) :
  (length (known_positions master) = Z.to_nat word_length →
   Z.to_nat word_length ≤ length (known_positions turn) →
   ∃ merged, merge word_length master turn = Ok merged) ∧
  (∀ merged, merge word_length master turn = Ok merged →
     length (known_positions merged) = length (known_positions master) ∧
     ∀ i c, known_positions master !! i = Some (Some c) →
       ∃ c', known_positions merged !! i = Some (Some c') ∧
             (c' = c ∨ known_positions turn !! i = Some (Some c'))).
Proof.
  split; [apply merge_returns|].
  unfold merge. intros merged (known & Hknown & [= <-])%bind_Ok. simpl.
  apply merge_known_lookup in Hknown as [Hlen Hknown]. split; [done|].
  intros i c Hi. destruct (Hknown i) as [->|(c' & _ & Hturn & ->)].
  - exists c. split; [done | by left].
  - exists c'. split; [done | by right].
Qed.

Lemma merge_never_unfixes_witness :
  let master := Constraints ∅ ∅ [None; None; None; Some (Latin "a"); None] [] in
  let turn := Constraints ∅ ∅ [Some (Latin "u"); None; None; None; None] [] in
  ∃ merged, merge 5 master turn = Ok merged ∧
            ∃ c', known_positions merged !! 3 = Some (Some c') ∧
                  (c' = (Latin "a") ∨ known_positions turn !! 3 = Some (Some c')).
Proof.
  intros master turn.
  destruct (merge_never_unfixes 5 master turn) as [Hreturns Hkeeps].
  destruct Hreturns as [merged Hmerged]; [reflexivity | simpl; lia |].
  exists merged. split; [done|].
  destruct (Hkeeps merged Hmerged) as [_ H]. by apply H.
Defined.

(** *** The session keeps the lists the merge needs

    [main] creates the master list with [word_length] slots and pads every
    turn's list to at least that length; so the merge of a turn returns, and
    the master list keeps its length. *)

Lemma read_turn_known_length (int : str → option Z) (word_length : Z) (w w' : world)
    (delta : constraints) :
  read_turn int word_length w = Ok (delta, w') →
  Z.to_nat word_length ≤ length (known_positions delta).
Proof.
  unfold read_turn.
  intros ([excluded w1] & _ & ([required w2] & _ & ([known w3] & _ & H)%bind_Ok)%bind_Ok)%bind_Ok.
  apply bind_Ok in H as ([forbidden w4] & _ & [= <- _]). simpl.
  rewrite length_fmap. unfold Py.ljust. rewrite length_app, length_replicate. lia.
Qed.

Lemma start_well_formed (word_length : Z) (use_dict : str)
    (dictionary_file combos_file : option (list str)) (s : session) :
  start word_length use_dict dictionary_file combos_file = Ok s → well_formed s.
Proof.
  unfold start. intros ([[dictionary words] brute] & _ & [= <-])%bind_Ok.
  unfold well_formed. simpl. apply length_replicate.
Qed.

Lemma turn_well_formed (int : str → option Z) (cpu_count : positive) (n : nat)
    (s s' : session) (w w' : world) (again : bool) :
  well_formed s →
  turn int cpu_count n s w = Ok (s', w', again) →
  well_formed s' ∧ word_length s' = word_length s.
Proof.
  unfold well_formed, turn, finish_turn. intros Hs ([delta w1] & _ & H)%bind_Ok.
  apply bind_Ok in H as (m & Hm & H).
  apply bind_Ok in H as ([words w2] & _ & H).
  apply bind_Ok in H as ([cont w3] & _ & [= <- _ _]). simpl. split; [|done].
  unfold merge in Hm. apply bind_Ok in Hm as (known & Hknown & [= <-]). simpl.
  apply merge_known_lookup in Hknown as [-> _]. done.
Qed.

(** In a well-formed session, a turn whose prompts were answered reaches
    the filter: the merge does not raise. *)
Lemma turn_merge_returns (int : str → option Z) (s : session) (w w' : world)
    (delta : constraints) :
  well_formed s →
  read_turn int (word_length s) w = Ok (delta, w') →
  ∃ merged, merge (word_length s) (master s) delta = Ok merged.
Proof.
  intros Hs Hread. apply merge_returns; [done|].
  by eapply read_turn_known_length.
Qed.

(** The agreement asked of a turn is what keeps the merge monotonic: a turn
    that renames a fixed position admits a word the master constraints
    rejected. *)
Example merge_contradiction_grows :
  let master := Constraints ∅ ∅ [Some (Latin "a")] [] in
  let turn := Constraints ∅ ∅ [Some (Latin "b")] [] in
  merge 1 master turn = Ok turn ∧
  word_predicate (py "b") turn None None = Ok true ∧
  word_predicate (py "b") master None None = Ok false.
Proof. simpl. repeat split; by vm_compute. Qed.

(** ** Loading the dictionary *)

(** [str.lower] never shortens a string, and keeps the length of one without
    U+0130. *)
Lemma length_lower_ge (s : str) : length s ≤ length (Py.lower s).
Proof.
  induction s as [|c s IH]; [done|]. rewrite lower_cons, length_app.
  destruct c; simpl; lia.
Qed.

Lemma length_lower (s : str) : U0130 ∉ s → length (Py.lower s) = length s.
Proof.
  induction s as [|c s IH]; [done|]. intros [Hc Hs]%not_elem_of_cons.
  rewrite lower_cons, length_app, IH by done. by destruct c.
Qed.

Lemma lstrip_subseteq (s : str) : Py.lstrip s ⊆ s.
Proof.
  induction s as [|c s IH]; simpl; [done|].
  destruct (Py.is_space c); [|done]. intros x Hx. by apply list_elem_of_further, IH.
Qed.

Lemma strip_subseteq (s : str) : Py.strip s ⊆ s.
Proof.
  intros c. unfold Py.strip. rewrite elem_of_reverse.
  intros Hc%lstrip_subseteq. rewrite elem_of_reverse in Hc. by apply lstrip_subseteq.
Qed.

(** What [protableword.load_dictionary] keeps of a file. *)
Lemma load_dictionary_elem_of (lines : list str) (word_length : Z) (d : gset str) (w : str) :
  load_dictionary (Some lines) word_length = Some d →
  w ∈ d ↔ ∃ line, line ∈ lines ∧
                  Z.of_nat (length (Py.strip line)) = word_length ∧
                  w = Py.lower (Py.strip line).
Proof.
  intros [= <-]. rewrite elem_of_list_to_set, list_elem_of_fmap. split.
  - intros (t & -> & (line & -> & [Hlen Hin]%list_elem_of_filter)%list_elem_of_fmap).
    by exists line.
  - intros (line & Hin & Hlen & ->). exists (Py.strip line). split; [done|].
    apply list_elem_of_fmap. exists line. split; [done|].
    by apply list_elem_of_filter.
Qed.

(** C7, at a line for which the code does not do what the claim says: with
    word length 4, [protableword.load_dictionary] keeps the line [İnek],
    whose trimmed form has four characters, and the entry it stores is the
    lowercase form of that, which has five.  So an entry of the lexicon has
    a length other than the word length. *)
Theorem load_dictionary_longer_entry :
  let line := U0130 :: py "nek" ++ [Latin "010"] in
  let entry := [Latin "i"; U0307; Latin "n"; Latin "e"; Latin "k"] in
  ∃ d, load_dictionary (Some [line]) 4 = Some d ∧
       entry ∈ d ∧
       entry = Py.lower (Py.strip line) ∧
       Z.of_nat (length (Py.strip line)) = 4%Z ∧
       length entry = 5 ∧
       ¬ (∀ w, w ∈ d → Z.of_nat (length w) = 4%Z).
Proof.
  intros line entry. eexists. split; [reflexivity|].
  assert (Hentry : entry ∈ (list_to_set [entry] : gset str)).
  { apply elem_of_list_to_set, list_elem_of_here. }
  repeat split; try done.
  intros Hlen. by apply Hlen in Hentry.
Qed.


(** ** Malformed yellow entries *)


Section Entries.

Context (int : str → option Z).






End Entries.

(** An entry whose first part is not one character, such as [ab:1] or [:1],
    passes the [try]; its key equals no character of any word, so it never
    rejects one. *)
Lemma check_positions_not_a_letter (word letter : str) (positions : list Z) :
  length letter ≠ 1 →
  Forall (λ pos, 0 ≤ pos)%Z positions →
  check_positions word letter positions = Ok true.
Proof.
  intros Hletter Hpos. apply check_positions_true. intros pos Hin Hlt.
  destruct (index_in_range word pos) as (ch & _ & Hch).
  { split; [|done]. by eapply Forall_forall in Hpos. }
  exists ch. split; [done|]. by intros <-.
Qed.

Example entry_with_two_letters :
  parse_entry Py.int (py "ab:1") = Some (py "ab", [1%Z]) ∧
  parse_entry Py.int (py ":1") = Some ([], [1%Z]) ∧
  parse_entry Py.int (py "a:1:2") = None ∧
  parse_entry Py.int (py "a:1,") = None ∧
  parse_entry Py.int (py "a:-1") = Some (py "a", [(-1)%Z]).
Proof. repeat split; by vm_compute. Qed.




(** ** The result sink *)

Lemma report_cases (words : list str) :
  (length words ≤ 20 → report words = [Remaining (length words); WordList words]) ∧
  (20 < length words → report words = [Remaining (length words); TooMany]).
Proof.
  unfold report. destruct (decide (length words ≤ 20)); split; intros; by try lia.
Qed.

(** C9: a turn that completes has printed, right after its filter pass and
    before asking whether to continue, the count of the surviving words,
    which are also the lines of [output.txt]; the list itself follows the
    count if and only if there are at most 20 words, and otherwise only the
    pointer to the output file follows it. *)
Theorem turn_reports_count (int : str → option Z) (cpu_count : positive) (n : nat)
    (s s' : session) (w w' : world) (again : bool) :
  turn int cpu_count n s w = Ok (s', w', again) →
  ∃ words before,
    possible_words s' = Some words ∧
    output_file w' = words ∧
    stdout w' = before ++ report words ++ [Prompt AskContinue] ∧
    Remaining (length words) ∈ report words ∧
    (WordList words ∈ report words ↔ length words ≤ 20) ∧
    (length words ≤ 20 → report words = [Remaining (length words); WordList words]) ∧
    (20 < length words → report words = [Remaining (length words); TooMany]).
Proof.
  unfold turn. intros ([delta w1] & _ & Hfinish)%bind_Ok.
  unfold finish_turn in Hfinish.
  apply bind_Ok in Hfinish as (m & _ & Hfinish).
  apply bind_Ok in Hfinish as ([words w2] & _ & Hfinish).
  apply bind_Ok in Hfinish as ([cont w3] & Hinput & [= <- <- _]).
  unfold input in Hinput. simpl in Hinput.
  destruct (stdin w2) as [|line rest]; [done|]. injection Hinput as _ <-.
  exists words, (stdout w2). simpl. rewrite <- app_assoc.
  destruct (report_cases words) as [Hfew Hmany].
  repeat split; try done.
  - unfold report. left.
  - unfold report. intros [[=]|Hin]%elem_of_cons.
    destruct (decide (length words ≤ 20)); [done|].
    by apply list_elem_of_singleton in Hin.
  - intros Hle. rewrite (Hfew Hle). right. left.
Qed.

Lemma turn_reports_count_witness :
  ∃ words before,
    Some [py "unfad"] = Some words ∧
    [py "unfad"] = words ∧
    [TurnHeader 1; Prompt AskExcluded; Prompt AskRequired; Prompt AskKnown;
     Prompt AskForbidden; Prompt AskForbidden; Prompt AskForbidden;
     InvalidFormat; Prompt AskForbidden;
     Remaining 1; WordList [py "unfad"]; Prompt AskContinue]
    = before ++ report words ++ [Prompt AskContinue] ∧
    Remaining (length words) ∈ report words ∧
    (WordList words ∈ report words ↔ length words ≤ 20) ∧
    (length words ≤ 20 → report words = [Remaining (length words); WordList words]) ∧
    (20 < length words → report words = [Remaining (length words); TooMany]).
Proof.
  apply (turn_reports_count Py.int 4 1
           (Session 5 None ∅ false (Some [py "unfad"; py "usual"; py "quean"])
                    (Constraints ∅ ∅ [None; None; None; None; None] []))
           (Session 5 None ∅ false (Some [py "unfad"])
                    (Constraints (list_to_set (py "spektogh")) (list_to_set (py "au"))
                                 [None; None; None; Some (Latin "a"); None]
                                 [(py "u", [2%Z; 4%Z])]))
           (World [py "SPEKTOGH"; py "au"; py "___a"; py "u:2"; py "u:4"; py "u-4";
                   py ""; py "n"] [] [])
           (World []
              [TurnHeader 1; Prompt AskExcluded; Prompt AskRequired; Prompt AskKnown;
               Prompt AskForbidden; Prompt AskForbidden; Prompt AskForbidden;
               InvalidFormat; Prompt AskForbidden;
               Remaining 1; WordList [py "unfad"]; Prompt AskContinue]
              [py "unfad"])
           false).
  by vm_compute.
Defined.


(** ** Turn over turn *)

(** Once there is a candidate list, a turn filters that list: the
    candidates of the next turn are a sublist of it, in the same order. *)
Lemma turn_candidates_shrink (int : str → option Z) (cpu_count : positive) (n : nat)
    (s s' : session) (w w' : world) (again : bool) (old : list str) :
  possible_words s = Some old →
  turn int cpu_count n s w = Ok (s', w', again) →
  ∃ new, possible_words s' = Some new ∧ new `sublist_of` old.
Proof.
  unfold turn, finish_turn. intros Hold ([delta w1] & _ & H)%bind_Ok.
  apply bind_Ok in H as (m & _ & H).
  apply bind_Ok in H as ([words w2] & Hpass & H).
  apply bind_Ok in H as ([cont w3] & _ & [= <- _ _]).
  exists words. split; [done|].
  unfold filter_pass in Hpass. rewrite Hold in Hpass.
  assert (Hwords : filter_with m (dictionary s) (Some (illegal_combos s)) old = Ok words).
  { rewrite <- (chunks_of_concat cpu_count old), <- filter_chunks_concat.
    by destruct (use_bruteforce s);
      apply bind_Ok in Hpass as (out & Hout & [= <- _]). }
  by eapply filter_with_sublist.
Qed.

(** * Further properties of the two programs *)

(** ** The illegal pairs *)

Lemma lower_latin_idempotent (a : ascii) :
  Py.lower_latin (Py.lower_latin a) = Py.lower_latin a.
Proof. by destruct a as [[] [] [] [] [] [] [] []]. Qed.

Lemma lower_char_idempotent (c : char) :
  Py.lower (Py.lower_char c) = Py.lower_char c.
Proof.
  destruct c as [a| |]; [|done..]. unfold Py.lower. simpl.
  by rewrite lower_latin_idempotent.
Qed.

Lemma lower_idempotent (s : str) : Py.lower (Py.lower s) = Py.lower s.
Proof.
  induction s as [|c s IH]; [done|]. rewrite lower_cons. unfold Py.lower at 1.
  rewrite bind_app. fold (Py.lower (Py.lower_char c)). fold (Py.lower (Py.lower s)).
  by rewrite lower_char_idempotent, IH.
Qed.

(** X1: [load_illegal_combos] keeps exactly the trimmed, lowercased lines of
    two characters, so every loaded pair has two characters and is its own
    lowercase form; and when [illegalcombos.txt] is missing, [check_word]
    given the loaded (empty) set answers as it does with no set at all. *)
Theorem illegal_combos_loaded :
  (∀ lines w,
     w ∈ load_illegal_combos (Some lines) ↔
     length w = 2 ∧ ∃ line, line ∈ lines ∧ w = Py.lower (Py.strip line)) ∧
  (∀ file w, w ∈ load_illegal_combos file → length w = 2 ∧ Py.lower w = w) ∧
  (∀ word excluded required known forbidden lexicon,
     check_word word excluded required known forbidden lexicon
       (Some (load_illegal_combos None))
     = check_word word excluded required known forbidden lexicon None).
Proof.
  assert (Hiff : ∀ lines w,
     w ∈ load_illegal_combos (Some lines) ↔
     length w = 2 ∧ ∃ line, line ∈ lines ∧ w = Py.lower (Py.strip line)).
  { intros lines w. unfold load_illegal_combos.
    rewrite elem_of_list_to_set, list_elem_of_filter, list_elem_of_fmap. split.
    - intros [Hlen (line & -> & Hin)]. split; [done|]. by exists line.
    - intros [Hlen (line & Hin & ->)]. split; [done|]. by exists line. }
  split; [done|]. split.
  - intros [lines|] w; [|by intros ?%not_elem_of_empty].
    intros [Hlen (line & _ & ->)]%Hiff. split; [done|]. apply lower_idempotent.
  - intros. unfold check_word. simpl.
    by destruct (decide ((∅ : gset str) ≠ ∅)).
Qed.

(** X2: the pair check ignores the letter case of the word.  A word with two
    adjacent characters whose lowercase form is an illegal pair is never
    admitted, and a word that passes every other check is rejected for it. *)
Theorem illegal_pair_any_case (word : str) (excluded required : gset char)
    (known : list (option char)) (forbidden : dict) (lexicon : option (gset str))
    (combos : gset str) (i : nat) :
  i + 1 < length word →
  Py.lower (Py.slice word i (i + 2)) ∈ combos →
  check_word word excluded required known forbidden lexicon (Some combos) ≠ Ok true ∧
  (check_word word excluded required known forbidden lexicon None = Ok true →
   check_word word excluded required known forbidden lexicon (Some combos) = Ok false).
Proof.
  intros Hi Hin. split.
  - intros (_ & _ & _ & _ & _ & H)%check_word_true. by apply (H combos i).
  - unfold check_word.
    destruct (match lexicon with Some _ => _ | None => _ end); [done|].
    destruct (existsb _ word); [done|].
    destruct (negb _); [done|].
    destruct (check_known word 0 known) as [[]|e]; simpl; [|done..].
    destruct (check_forbidden word forbidden) as [[]|e]; simpl; [|done..].
    intros _. rewrite decide_True by (intros ->; by apply not_elem_of_empty in Hin).
    f_equal. apply not_true_is_false. rewrite check_combos_true. intros H.
    apply (H i); [|done]. apply elem_of_range. lia.
Qed.

Lemma illegal_pair_any_case_witness :
  check_word (py "AQZBC") ∅ ∅ [] [] None (Some {[py "qz"]}) ≠ Ok true ∧
  (check_word (py "AQZBC") ∅ ∅ [] [] None None = Ok true →
   check_word (py "AQZBC") ∅ ∅ [] [] None (Some {[py "qz"]}) = Ok false).
Proof.
  apply (illegal_pair_any_case (py "AQZBC") ∅ ∅ [] [] None {[py "qz"]} 1).
  - simpl. lia.
  - by vm_compute.
Defined.

(** ** Negative forbidden positions *)

Lemma index_from_end (s : str) (i : Z) :
  (- Z.of_nat (length s) ≤ i < 0)%Z →
  Py.index s i = Py.index s (i + Z.of_nat (length s)).
Proof.
  intros Hi. unfold Py.index.
  destruct (Z.ltb_spec i 0) as [_|?]; [|lia].
  by destruct (Z.ltb_spec (i + Z.of_nat (length s)) 0) as [?|_]; [lia|].
Qed.

Lemma index_below (s : str) (i : Z) :
  (i < - Z.of_nat (length s))%Z → Py.index s i = Raise IndexError.
Proof.
  intros Hi. unfold Py.index.
  destruct (Z.ltb_spec i 0) as [_|?]; [|lia].
  by destruct (Z.leb_spec 0 (i + Z.of_nat (length s))) as [?|_]; [lia|].
Qed.

Lemma check_positions_app (word letter : str) (ps qs : list Z) :
  check_positions word letter (ps ++ qs)
  = (passed ← check_positions word letter ps;
     if passed : bool then check_positions word letter qs else Ok false).
Proof.
  induction ps as [|pos ps IH]; simpl; [done|].
  destruct (pos <? Z.of_nat (length word))%Z; [|done].
  destruct (Py.index word pos) as [ch|e]; simpl; [|done].
  by destruct (decide ([ch] = letter)).
Qed.

Lemma check_forbidden_app (word : str) (d1 d2 : dict) :
  check_forbidden word (d1 ++ d2)
  = (passed ← check_forbidden word d1;
     if passed : bool then check_forbidden word d2 else Ok false).
Proof.
  induction d1 as [|[letter positions] d1 IH]; simpl; [done|].
  by destruct (check_positions word letter positions) as [[]|e].
Qed.

(** X3: [check_word] tests a forbidden position only against the length of
    the word, so a negative position is used as an index.  A position [-k]
    with [k] at most the length of the word acts as the position [k] places
    from the end; a position below that makes [check_word] raise
    [IndexError] on every word that passes the checks made before it. *)
Theorem negative_position_indexes_from_end (word : str) (pos : Z)
    (excluded required : gset char) (known : list (option char))
    (d1 d2 : dict) (letter : str) (before after : list Z)
    (lexicon combos : option (gset str)) :
  ((- Z.of_nat (length word) ≤ pos < 0)%Z →
   check_word word excluded required known
     (d1 ++ (letter, before ++ pos :: after) :: d2) lexicon combos
   = check_word word excluded required known
       (d1 ++ (letter, before ++ (pos + Z.of_nat (length word))%Z :: after) :: d2)
       lexicon combos) ∧
  ((pos < - Z.of_nat (length word))%Z →
   check_word word excluded required known (d1 ++ [(letter, before)]) lexicon None
   = Ok true →
   check_word word excluded required known
     (d1 ++ (letter, before ++ pos :: after) :: d2) lexicon combos
   = Raise IndexError).
Proof.
  split.
  - intros Hpos. unfold check_word. do 2 f_equal.
    rewrite !check_forbidden_app. simpl. rewrite !check_positions_app. simpl.
    destruct (Z.ltb_spec pos (Z.of_nat (length word))) as [_|?]; [|lia].
    destruct (Z.ltb_spec (pos + Z.of_nat (length word)) (Z.of_nat (length word)))
      as [_|?]; [|lia].
    by rewrite index_from_end.
  - intros Hpos. unfold check_word.
    destruct (match lexicon with Some _ => _ | None => _ end); [done|].
    destruct (existsb _ word); [done|].
    destruct (negb _); [done|].
    destruct (check_known word 0 known) as [[]|e]; simpl; [|done..].
    rewrite !check_forbidden_app. simpl. rewrite check_positions_app. simpl.
    destruct (check_forbidden word d1) as [[]|e]; simpl; [|done..].
    destruct (check_positions word letter before) as [[]|e]; simpl; [|done..].
    intros _.
    destruct (Z.ltb_spec pos (Z.of_nat (length word))) as [_|?]; [|lia].
    by rewrite index_below.
Qed.

Lemma negative_position_indexes_from_end_witness :
  check_word (py "abcde") ∅ ∅ [] [(py "e", [(-1)%Z])] None None
  = check_word (py "abcde") ∅ ∅ [] [(py "e", [4%Z])] None None ∧
  check_word (py "abcde") ∅ ∅ [] [(py "e", [(-6)%Z])] None None = Raise IndexError.
Proof.
  split.
  - apply (proj1 (negative_position_indexes_from_end (py "abcde") (-1) ∅ ∅ []
                    [] [] (py "e") [] [] None None)).
    simpl. lia.
  - apply (proj2 (negative_position_indexes_from_end (py "abcde") (-6) ∅ ∅ []
                    [] [] (py "e") [] [] None None)).
    + simpl. lia.
    + by vm_compute.
Defined.

(** ** The dictionary of forbidden positions *)

Lemma dict_get_None (d : dict) (k : str) : dict_get d k = None ↔ k ∉ d.*1.
Proof.
  induction d as [|[k' v] d IH]; simpl.
  - split; [intros _; apply not_elem_of_nil | done].
  - rewrite not_elem_of_cons. destruct (decide (k' = k)) as [->|Hne].
    + split; [done | by intros [? _]].
    + rewrite IH. split; [by intros ? | by intros [_ ?]].
Qed.

Lemma dict_get_extend_eq (d : dict) (k : str) (ps : list Z) :
  dict_get (dict_extend d k ps) k = Some (default [] (dict_get d k) ++ ps).
Proof.
  induction d as [|[k' v] d IH]; simpl.
  - by rewrite decide_True.
  - destruct (decide (k' = k)) as [->|Hne]; simpl.
    + by rewrite decide_True.
    + by rewrite decide_False.
Qed.

Lemma dict_get_extend_ne (d : dict) (k k' : str) (ps : list Z) :
  k ≠ k' → dict_get (dict_extend d k ps) k' = dict_get d k'.
Proof.
  intros Hne. induction d as [|[k0 v] d IH]; simpl.
  - by rewrite decide_False.
  - destruct (decide (k0 = k)) as [->|Hne0]; simpl.
    + by rewrite !decide_False.
    + by rewrite IH.
Qed.

Lemma dict_extend_keys (d : dict) (k : str) (ps : list Z) :
  (dict_extend d k ps).*1 = if decide (k ∈ d.*1) then d.*1 else d.*1 ++ [k].
Proof.
  induction d as [|[k' v] d IH].
  - simpl. destruct (decide (k ∈ [])) as [Hin|_]; [|done]. by apply elem_of_nil in Hin.
  - cbn [dict_extend]. rewrite fmap_cons. cbn [fst].
    destruct (decide (k' = k)) as [->|Hne].
    + rewrite fmap_cons. cbn [fst].
      destruct (decide (k ∈ k :: d.*1)) as [_|Hout]; [done|]. destruct Hout. left.
    + rewrite fmap_cons, IH. cbn [fst].
      destruct (decide (k ∈ d.*1)) as [Hin|Hout],
               (decide (k ∈ k' :: d.*1)) as [Hin'|Hout']; try done.
      * destruct Hout'. by right.
      * by apply elem_of_cons in Hin' as [?|?].
Qed.

Lemma dict_extend_NoDup (d : dict) (k : str) (ps : list Z) :
  NoDup d.*1 → NoDup (dict_extend d k ps).*1.
Proof.
  intros Hd. rewrite dict_extend_keys. destruct (decide (k ∈ d.*1)); [done|].
  apply NoDup_app. repeat split; [done| |apply NoDup_singleton].
  intros x Hx ->%list_elem_of_singleton. done.
Qed.

(** X4: the update [if letter in d: d[letter].extend(positions) else:
    d[letter] = positions] appends the positions to those the letter already
    has (to none when the letter is new), leaves every other letter's
    positions as they are, keeps the keys in their order, a new letter going
    last, and keeps them distinct. *)
Theorem dict_extend_lookup (d : dict) (letter : str) (positions : list Z) :
  dict_get (dict_extend d letter positions) letter
  = Some (default [] (dict_get d letter) ++ positions) ∧
  (∀ other, letter ≠ other →
     dict_get (dict_extend d letter positions) other = dict_get d other) ∧
  (dict_extend d letter positions).*1
  = (if decide (letter ∈ d.*1) then d.*1 else d.*1 ++ [letter]) ∧
  (NoDup d.*1 → NoDup (dict_extend d letter positions).*1).
Proof.
  split; [apply dict_get_extend_eq|].
  split; [intros other; apply dict_get_extend_ne|].
  split; [apply dict_extend_keys | apply dict_extend_NoDup].
Qed.

Lemma dict_extend_lookup_witness :
  dict_get (dict_extend [(py "r", [0%Z; 2%Z]); (py "t", [4%Z])] (py "r") [3%Z]) (py "r")
  = Some ([0%Z; 2%Z] ++ [3%Z]) ∧
  dict_get (dict_extend [(py "r", [0%Z; 2%Z]); (py "t", [4%Z])] (py "r") [3%Z]) (py "t")
  = Some [4%Z] ∧
  NoDup (dict_extend [(py "r", [0%Z; 2%Z]); (py "t", [4%Z])] (py "r") [3%Z]).*1.
Proof.
  destruct (dict_extend_lookup [(py "r", [0%Z; 2%Z]); (py "t", [4%Z])] (py "r") [3%Z])
    as (Hsame & Hother & _ & Hnodup).
  split; [exact Hsame|]. split.
  - rewrite Hother; [reflexivity | discriminate].
  - apply Hnodup. apply (bool_decide_unpack _). by vm_compute.
Defined.

Lemma merge_forbidden_get (master turn : dict) (k : str) :
  NoDup turn.*1 →
  dict_get (merge_forbidden master turn) k
  = match dict_get turn k with
    | Some added => Some (default [] (dict_get master k) ++ added)
    | None => dict_get master k
    end.
Proof.
  unfold merge_forbidden. revert master.
  induction turn as [|[k0 v0] turn IH]; intros master Hturn; [done|].
  rewrite fmap_cons in Hturn. apply NoDup_cons in Hturn as [Hk0 Hturn].
  cbn [fst] in Hk0. simpl. rewrite IH by done.
  destruct (decide (k0 = k)) as [->|Hne].
  - rewrite (proj2 (dict_get_None turn k) Hk0). by rewrite dict_get_extend_eq.
  - by rewrite dict_get_extend_ne.
Qed.

Lemma merge_forbidden_NoDup (master turn : dict) :
  NoDup master.*1 → NoDup (merge_forbidden master turn).*1.
Proof.
  unfold merge_forbidden. revert master.
  induction turn as [|[k0 v0] turn IH]; intros master Hmaster; simpl; [done|].
  by apply IH, dict_extend_NoDup.
Qed.

(** X5: merging a turn's forbidden positions into the master ones appends,
    letter by letter, the turn's positions after the master's: a letter only
    the turn has gets the turn's list, a letter only the master has keeps
    its list, and the keys stay distinct. *)
Theorem merge_forbidden_lookup (master turn : dict) (letter : str) :
  NoDup turn.*1 →
  dict_get (merge_forbidden master turn) letter
  = match dict_get master letter, dict_get turn letter with
    | Some old, Some added => Some (old ++ added)
    | Some old, None => Some old
    | None, Some added => Some added
    | None, None => None
    end ∧
  (NoDup master.*1 → NoDup (merge_forbidden master turn).*1).
Proof.
  intros Hturn. split; [|apply merge_forbidden_NoDup].
  rewrite merge_forbidden_get by done.
  by destruct (dict_get master letter), (dict_get turn letter).
Qed.

Lemma merge_forbidden_lookup_witness :
  dict_get (merge_forbidden [(py "u", [2%Z])] [(py "n", [0%Z]); (py "u", [4%Z])]) (py "u")
  = Some ([2%Z] ++ [4%Z]).
Proof.
  destruct (merge_forbidden_lookup [(py "u", [2%Z])] [(py "n", [0%Z]); (py "u", [4%Z])]
              (py "u")) as [Hget _].
  - apply (bool_decide_unpack _). by vm_compute.
  - exact Hget.
Defined.

(** ** Reading the yellow entries *)

Lemma collect_NoDup (int : str → option Z) (d : dict) (entries : list str) :
  NoDup d.*1 → NoDup (collect int d entries).*1.
Proof.
  unfold collect. revert d. induction entries as [|line entries IH]; intros d Hd; [done|].
  simpl. apply IH.
  destruct (parse_entry int (Py.lower (Py.strip line))) as [[letter positions]|]; [|done].
  by apply dict_extend_NoDup.
Qed.

(** X6: the loop over the yellow entries reads up to the first blank line
    and leaves the lines after it unread.  It returns the positions of the
    entries it could parse, appended letter by letter in the order typed,
    under distinct keys; it prints the prompt once per line read and the
    error message after each entry it could not parse; and when the input
    ends before a blank line it raises [EOFError]. *)
Theorem read_forbidden_collects (int : str → option Z) (entries : list str)
    (printed : list output) (file : list str) (d : dict) :
  Forall (λ y, Py.lower (Py.strip y) ≠ []) entries →
  (∀ blank rest,
     Py.lower (Py.strip blank) = [] →
     read_forbidden int (entries ++ blank :: rest) printed file d
     = Ok (collect int d entries,
           World rest (printed ++ transcript int entries ++ [Prompt AskForbidden]) file)) ∧
  read_forbidden int entries printed file d = Raise EOFError ∧
  (NoDup d.*1 → NoDup (collect int d entries).*1).
Proof.
  intros Hentries. split; [|split; [|apply collect_NoDup]].
  - intros blank rest Hblank. revert printed d.
    induction Hentries as [|y entries Hy _ IH]; intros printed d.
    + simpl. by rewrite decide_True.
    + rewrite <- app_comm_cons. cbn [read_forbidden]. rewrite decide_False by done.
      unfold collect, transcript. simpl.
      destruct (parse_entry int (Py.lower (Py.strip y))) as [[letter positions]|];
        rewrite IH; unfold collect, transcript; simpl; by rewrite <- !app_assoc.
  - revert printed d. induction Hentries as [|y entries Hy _ IH]; intros printed d; [done|].
    cbn [read_forbidden]. rewrite decide_False by done.
    destruct (parse_entry int (Py.lower (Py.strip y))) as [[letter positions]|]; apply IH.
Qed.

Lemma read_forbidden_collects_witness :
  read_forbidden Py.int ([py "r:0,2"; py "oops"; py "R:4"] ++ py " " :: [py "y"]) [] [] []
  = Ok (collect Py.int [] [py "r:0,2"; py "oops"; py "R:4"],
        World [py "y"]
              ([] ++ transcript Py.int [py "r:0,2"; py "oops"; py "R:4"]
                  ++ [Prompt AskForbidden]) []) ∧
  collect Py.int [] [py "r:0,2"; py "oops"; py "R:4"] = [(py "r", [0%Z; 2%Z; 4%Z])] ∧
  read_forbidden Py.int [py "r:0,2"; py "oops"; py "R:4"] [] [] [] = Raise EOFError.
Proof.
  destruct (read_forbidden_collects Py.int [py "r:0,2"; py "oops"; py "R:4"] [] [] [])
    as (Hblank & Heof & _).
  - repeat constructor; by vm_compute.
  - split; [by apply Hblank; vm_compute|]. split; [by vm_compute | exact Heof].
Defined.

(** ** What the merge writes *)

Lemma merge_known_exact (indices : list nat) (known master merged : list (option char)) :
  merge_known indices known master = Ok merged →
  ∀ i, merged !! i
       = match known !! i with
         | Some (Some c) => if decide (i ∈ indices) then Some (Some c) else master !! i
         | _ => master !! i
         end.
Proof.
  revert master. induction indices as [|i0 rest IH]; intros master; simpl.
  - intros [= ->] i. destruct (known !! i) as [[c|]|]; [|done..].
    destruct (decide (i ∈ [])) as [Hin|_]; [|done]. by apply elem_of_nil in Hin.
  - destruct (known !! i0) as [[c0|]|] eqn:Hi0; [| |done].
    + destruct (decide (i0 < length master)) as [Hlt|]; [|done].
      intros Hm i. rewrite (IH _ Hm i). destruct (decide (i = i0)) as [->|Hne].
      * rewrite Hi0, list_lookup_insert_eq by done.
        destruct (decide (i0 ∈ rest)), (decide (i0 ∈ i0 :: rest)) as [|Hout];
          try done; destruct Hout; left.
      * rewrite list_lookup_insert_ne by done.
        destruct (known !! i) as [[c|]|]; [|done..].
        destruct (decide (i ∈ rest)) as [Hin|Hout],
                 (decide (i ∈ i0 :: rest)) as [Hin'|Hout']; try done.
        -- destruct Hout'. by right.
        -- by apply elem_of_cons in Hin' as [?|?].
    + intros Hm i. rewrite (IH _ Hm i).
      destruct (known !! i) as [[c|]|] eqn:Hi; [|done..].
      destruct (decide (i ∈ rest)) as [Hin|Hout],
               (decide (i ∈ i0 :: rest)) as [Hin'|Hout']; try done.
      * destruct Hout'. by right.
      * apply elem_of_cons in Hin' as [->|?]; [congruence | done].
Qed.

(** X7: the merge of the known positions is last write wins, slot by slot:
    a slot inside the word for which the turn names a letter holds that
    letter afterwards, whatever it held before; every other slot, those the
    turn leaves unknown and those at or beyond the word length, holds what
    the master list held.  The letter sets are the unions. *)
Theorem merge_last_write_wins (word_length : Z) (master turn merged : constraints) :
  merge word_length master turn = Ok merged →
  (∀ i, known_positions merged !! i
        = match known_positions turn !! i with
          | Some (Some c) =>
              if decide (Z.of_nat i < word_length)%Z then Some (Some c)
              else known_positions master !! i
          | _ => known_positions master !! i
          end) ∧
  excluded_letters merged = excluded_letters master ∪ excluded_letters turn ∧
  required_letters merged = required_letters master ∪ required_letters turn.
Proof.
  unfold merge. intros (known & Hknown & [= <-])%bind_Ok. simpl.
  split; [|done]. intros i. rewrite (merge_known_exact _ _ _ _ Hknown i).
  destruct (known_positions turn !! i) as [[c|]|]; [|done..].
  destruct (decide (i ∈ Py.range word_length)) as [Hin|Hout],
           (decide (Z.of_nat i < word_length)%Z) as [Hlt|Hge]; try done.
  - by apply elem_of_range in Hin.
  - by apply elem_of_range in Hlt.
Qed.

Lemma merge_last_write_wins_witness :
  let master := Constraints (list_to_set (py "sp")) ∅
                            [None; Some (Latin "n"); None; Some (Latin "a"); None] [] in
  let turn := Constraints (list_to_set (py "e")) (list_to_set (py "u"))
                          [Some (Latin "u"); Some (Latin "m"); None; None; None; Some (Latin "x")]
                          [] in
  ∃ merged,
    merge 5 master turn = Ok merged ∧
    known_positions merged !! 1 = Some (Some (Latin "m")) ∧
    known_positions merged !! 3 = Some (Some (Latin "a")) ∧
    known_positions merged !! 5 = None.
Proof.
  intros master turn.
  exists (Constraints (list_to_set (py "spe")) (list_to_set (py "u"))
            [Some (Latin "u"); Some (Latin "m"); None; Some (Latin "a"); None] []).
  assert (Hmerge : merge 5 master turn
                   = Ok (Constraints (list_to_set (py "spe")) (list_to_set (py "u"))
                           [Some (Latin "u"); Some (Latin "m"); None; Some (Latin "a"); None] []))
    by by vm_compute.
  destruct (merge_last_write_wins 5 master turn _ Hmerge) as [Hknown _].
  split; [exact Hmerge|]. by rewrite !Hknown.
Defined.

(** ** A turn without new information *)

Lemma merge_known_blank (indices : list nat) (n : nat) (master : list (option char)) :
  Forall (λ i, i < n) indices →
  merge_known indices (replicate n None) master = Ok master.
Proof.
  induction 1 as [|i rest Hi _ IH]; simpl; [done|].
  by rewrite lookup_replicate_2.
Qed.

Lemma merge_blank (word_length : Z) (master : constraints) (n : nat) :
  Z.to_nat word_length ≤ n →
  merge word_length master (Constraints ∅ ∅ (replicate n None) []) = Ok master.
Proof.
  intros Hn. unfold merge. simpl. rewrite merge_known_blank.
  - destruct master as [ex req known forb]. simpl.
    by rewrite !(right_id_L ∅ (∪)).
  - apply Forall_forall. intros i Hi%elem_of_range. lia.
Qed.

(** What a filter pass returns passes the same filter unchanged. *)
Lemma filter_pass_fixed (cpu_count : positive) (s : session) (m : constraints)
    (w w' : world) (words : list str) :
  filter_pass cpu_count s m w = Ok (words, w') →
  filter_with m (dictionary s) (Some (illegal_combos s)) words = Ok words.
Proof.
  unfold filter_pass, filter_brute_force. intros Hpass.
  assert (∃ candidates,
            filter_with m (dictionary s) (Some (illegal_combos s)) candidates = Ok words)
    as [candidates Hwords].
  { destruct (use_bruteforce s), (possible_words s) as [old|]; try done.
    - apply bind_Ok in Hpass as (out & Hout & [= <- _]).
      rewrite filter_chunks_concat in Hout. by eexists.
    - destruct (word_length s <? 0)%Z; [done|].
      apply bind_Ok in Hpass as (out & Hout & [= <- _]). by eexists.
    - apply bind_Ok in Hpass as (out & Hout & [= <- _]).
      rewrite filter_chunks_concat in Hout. by eexists. }
  pose proof (filter_with_idempotent m (dictionary s) (Some (illegal_combos s)) candidates)
    as Hidem.
  by rewrite Hwords in Hidem.
Qed.

(** X8: a turn answered with blank lines at its four constraint prompts
    changes nothing.  After any completed turn of a session whose master list
    has the word length, such a turn leaves the master constraints and the
    candidate list, and so the whole session and [output.txt], exactly as
    they were, and reads no more than its own five lines. *)
Theorem blank_turn_changes_nothing (int : str → option Z) (cpu_count cpu_count' : positive)
    (n n' : nat) (s s1 : session) (w w1 : world) (again : bool)
    (b1 b2 b3 b4 answer : str) (rest : list str) :
  well_formed s →
  turn int cpu_count n s w = Ok (s1, w1, again) →
  stdin w1 = b1 :: b2 :: b3 :: b4 :: answer :: rest →
  Forall (λ b, Py.lower (Py.strip b) = []) [b1; b2; b3; b4] →
  ∃ w2,
    turn int cpu_count' n' s1 w1
    = Ok (s1, w2, bool_decide (Py.lower (Py.strip answer) = py "y")) ∧
    stdin w2 = rest ∧
    output_file w2 = output_file w1.
Proof.
  intros Hs Hturn Hstdin Hblank.
  apply Forall_cons in Hblank as [Hb1 Hblank]. apply Forall_cons in Hblank as [Hb2 Hblank].
  apply Forall_cons in Hblank as [Hb3 Hblank]. apply Forall_cons in Hblank as [Hb4 _].
  unfold turn, finish_turn in Hturn.
  apply bind_Ok in Hturn as ([delta w0] & _ & Hturn).
  apply bind_Ok in Hturn as (m & Hm & Hturn).
  apply bind_Ok in Hturn as ([words w0'] & Hpass & Hturn).
  apply bind_Ok in Hturn as ([cont w0''] & Hinput & [= <- <- _]).
  assert (Hlen : length (known_positions m) = Z.to_nat (word_length s)).
  { unfold merge in Hm. apply bind_Ok in Hm as (known & Hknown & [= <-]). simpl.
    apply merge_known_lookup in Hknown as [-> _]. done. }
  apply filter_pass_fixed in Hpass.
  unfold input in Hinput. simpl in Hinput.
  destruct (stdin w0') as [|line lines]; [done|]. injection Hinput as _ <-.
  simpl in Hstdin. subst lines. clear line.
  unfold turn, read_turn, input, print. simpl.
  rewrite Hb1, Hb2, Hb3. rewrite decide_True by done. simpl.
  unfold Py.ljust. simpl. rewrite Nat.sub_0_r, fmap_replicate.
  destruct (decide ((Latin "_") ≠ (Latin "_"))) as [Hne|_]; [done|].
  unfold finish_turn. simpl. rewrite merge_blank by done. simpl.
  unfold filter_pass. simpl.
  assert (Hchunks : filter_chunks m (dictionary s) (Some (illegal_combos s))
                      (chunks_of cpu_count' words) = Ok words).
  { by rewrite filter_chunks_concat, chunks_of_concat. }
  destruct (use_bruteforce s); rewrite Hchunks; simpl; unfold input; simpl;
    by eexists.
Qed.

Lemma blank_turn_changes_nothing_witness :
  let s1 := Session 5 None ∅ false (Some [py "unfad"])
              (Constraints (list_to_set (py "spektogh")) (list_to_set (py "au"))
                           [None; None; None; Some (Latin "a"); None] [(py "u", [2%Z])]) in
  let w1 := World [py ""; py " "; py ""; py ""; py "n"]
              [TurnHeader 1; Prompt AskExcluded; Prompt AskRequired; Prompt AskKnown;
               Prompt AskForbidden; Prompt AskForbidden;
               Remaining 1; WordList [py "unfad"]; Prompt AskContinue]
              [py "unfad"] in
  ∃ w2,
    turn Py.int 2 2 s1 w1 = Ok (s1, w2, bool_decide (Py.lower (Py.strip (py "n")) = py "y")) ∧
    stdin w2 = [] ∧
    output_file w2 = output_file w1.
Proof.
  intros s1 w1.
  apply (blank_turn_changes_nothing Py.int 4 2 1 2
           (Session 5 None ∅ false (Some [py "unfad"; py "usual"; py "quean"])
                    (Constraints ∅ ∅ [None; None; None; None; None] []))
           s1
           (World [py "spektogh"; py "au"; py "___a_"; py "u:2"; py ""; py "y";
                   py ""; py " "; py ""; py ""; py "n"] [] [])
           w1 true (py "") (py " ") (py "") (py "") (py "n") []).
  - reflexivity.
  - by vm_compute.
  - reflexivity.
  - repeat constructor; by vm_compute.
Defined.

(** ** The chunks of the driver *)

Lemma ceil_div_bounds (n size : nat) :
  0 < size →
  let count := (n + size - 1) / size in
  n ≤ count * size ∧ (∀ k, k < count → k * size < n) ∧ count ≤ n.
Proof.
  intros Hsize count.
  pose proof (Nat.div_mod_eq (n + size - 1) size) as Hdiv.
  pose proof (Nat.mod_upper_bound (n + size - 1) size) as Hmod.
  fold count in Hdiv. repeat split.
  - nia.
  - intros k Hk. nia.
  - destruct (decide (count = 0)) as [->|]; [lia|]. nia.
Qed.

(** X9: the candidates are cut into chunks of [max(1, len // cpu_count)]
    words.  No chunk is empty and none is longer than that size; an empty
    candidate list gives no chunk at all; and there are at least as many
    chunks as there are workers, or words when these are fewer, and never
    more chunks than words. *)
Theorem chunks_of_shape (cpu_count : positive) (words : list str) :
  Forall (λ chunk, 0 < length chunk ≤ max 1 (length words / Pos.to_nat cpu_count))
         (chunks_of cpu_count words) ∧
  chunks_of cpu_count [] = [] ∧
  min (length words) (Pos.to_nat cpu_count) ≤ length (chunks_of cpu_count words) ∧
  length (chunks_of cpu_count words) ≤ length words.
Proof.
  assert (Hnil : chunks_of cpu_count [] = []).
  { unfold chunks_of, Py.range_step. simpl.
    by rewrite Nat.Div0.div_0_l. }
  split; [|split; [done|]]; unfold chunks_of, Py.range_step;
    set (size := max 1 (length words / Pos.to_nat cpu_count));
    assert (Hsize : 0 < size) by lia;
    destruct (ceil_div_bounds (length words) size Hsize) as (Hcover & Hinside & Hcount).
  - rewrite !Forall_fmap. apply Forall_forall. intros k [_ Hk]%elem_of_seq. simpl.
    unfold Py.slice. rewrite length_take, length_drop.
    specialize (Hinside k). lia.
  - rewrite !length_fmap, length_seq. split; [|done].
    pose proof (Nat.div_mod_eq (length words) (Pos.to_nat cpu_count)) as Hdiv.
    pose proof (Nat.mod_upper_bound (length words) (Pos.to_nat cpu_count)) as Hmod.
    pose proof (Pos2Nat.is_pos cpu_count) as Hcpu.
    destruct (decide (length words / Pos.to_nat cpu_count = 0)) as [Hzero|Hpos].
    + assert (size = 1) as Hone by lia. rewrite Hone in *. nia.
    + assert (size = length words / Pos.to_nat cpu_count) as Hdef by lia.
      apply Nat.min_le_iff. right. nia.
Qed.

(** ** When the filter raises, and what it returns *)

Section FilterOutcome.

Context (c : constraints) (lexicon combos : option (gset str)).

Local Abbreviation filtered := (filter_with c lexicon combos).
Local Abbreviation checked := (λ w : str, word_predicate w c lexicon combos).

Lemma filter_with_Raise (l : list str) (e : exn) :
  filtered l = Raise e ↔
  ∃ before w after,
    l = before ++ w :: after ∧
    Forall (λ v, ∃ b, checked v = Ok b) before ∧
    checked w = Raise e.
Proof.
  split.
  - induction l as [|w l IH]; [done|].
    rewrite filter_with_cons.
    destruct (checked w) as [keep|e'] eqn:Hw; simpl.
    + destruct (filtered l) as [kept|e'] eqn:Hl; simpl; [done|].
      intros [= ->]. destruct (IH eq_refl) as (before & v & after & -> & Hbefore & Hv).
      exists (w :: before), v, after. repeat split; [|done].
      constructor; [by exists keep | done].
    + intros [= ->]. exists [], w, l. repeat split; [constructor | done].
  - intros (before & w & after & -> & Hbefore & Hw).
    induction Hbefore as [|v before [b Hv] _ IH].
    + simpl. rewrite filter_with_cons, Hw. done.
    + rewrite <- app_comm_cons, filter_with_cons, Hv, IH. done.
Qed.

(** A returned list is the order-preserving filter of the candidates, and
    the predicate returned on each of them. *)
Lemma filter_with_Ok (l out : list str) :
  filtered l = Ok out →
  out = filter (λ w, checked w = Ok true) l ∧
  Forall (λ w, ∃ b, checked w = Ok b) l.
Proof.
  revert out. induction l as [|w l IH]; intros out.
  - intros [= <-]. by split.
  - rewrite filter_with_cons.
    intros (keep & Hw & (kept & Hkept & [= <-])%bind_Ok)%bind_Ok.
    destruct (IH kept Hkept) as [-> Hall]. split.
    + destruct keep.
      * by rewrite filter_cons_True.
      * by rewrite filter_cons_False by (rewrite Hw; discriminate).
    + constructor; [by exists keep | done].
Qed.

End FilterOutcome.

(** X10: the filter raises exactly when [check_word] raises on some
    candidate, and then with the exception of the first such candidate in
    the list; chunking changes neither the fact nor the exception. *)
Theorem filter_raises_first (c : constraints) (lexicon combos : option (gset str))
    (chunks : list (list str)) (e : exn) :
  (filter_with c lexicon combos (concat chunks) = Raise e ↔
   ∃ before w after,
     concat chunks = before ++ w :: after ∧
     Forall (λ v, ∃ b, word_predicate v c lexicon combos = Ok b) before ∧
     word_predicate w c lexicon combos = Raise e) ∧
  (filter_chunks c lexicon combos chunks = Raise e ↔
   filter_with c lexicon combos (concat chunks) = Raise e).
Proof.
  split; [apply filter_with_Raise|]. by rewrite filter_chunks_concat.
Qed.

(** ** The brute-force candidates *)

Lemma product_elem (alphabet w : str) (n : nat) :
  w ∈ Py.product alphabet n ↔ length w = n ∧ Forall (λ ch, ch ∈ alphabet) w.
Proof.
  revert w. induction n as [|n IH]; intros w; simpl.
  - rewrite list_elem_of_singleton. split.
    + intros ->. by split.
    + intros [Hlen _]. by destruct w.
  - rewrite list_elem_of_bind. split.
    + intros (ch & (w' & -> & [<- Hw']%IH)%list_elem_of_fmap & Hch).
      split; [done | by constructor].
    + intros [Hlen Hall]. destruct w as [|ch w']; [done|].
      apply Forall_cons in Hall as [Hch Hall]. exists ch. split; [|done].
      apply list_elem_of_fmap. exists w'. split; [done|]. apply IH.
      split; [by injection Hlen | done].
Qed.

Lemma product_NoDup (alphabet : str) (n : nat) :
  NoDup alphabet → NoDup (Py.product alphabet n).
Proof.
  intros Halphabet. induction n as [|n IH]; simpl; [apply NoDup_singleton|].
  apply NoDup_bind; [| |done].
  - intros c1 c2 w _ _ (w1 & -> & _)%list_elem_of_fmap (w2 & [= -> _] & _)%list_elem_of_fmap.
    done.
  - intros ch _. apply NoDup_fmap_2; [|done]. by intros w1 w2 [= ->].
Qed.

Lemma product_count (alphabet : str) (n : nat) :
  length (Py.product alphabet n) = length alphabet ^ n.
Proof.
  assert (Hbind : ∀ (l : str) (ws : list str),
            length (l ≫= λ ch, (ch ::.) <$> ws) = length l * length ws).
  { intros l ws. induction l as [|ch l IHl]; [done|].
    rewrite bind_cons, length_app, length_fmap, IHl. done. }
  induction n as [|n IH]; simpl; [done|]. by rewrite Hbind, IH.
Qed.

Lemma alphabet_NoDup : NoDup alphabet.
Proof. apply (bool_decide_unpack _). by vm_compute. Qed.

(** X11: the brute-force pass refuses a negative word length with
    [ValueError].  Otherwise, given a master list of the word length and no
    negative forbidden position, it returns, and what it returns are exactly
    the strings of the word length over the letters a-z that [check_word]
    admits, each once, so at most [26 ^ word_length] of them; for the word
    length 0 the only candidate is the empty string. *)
Theorem brute_force_exact (word_length : Z) (c : constraints)
    (lexicon combos : option (gset str)) :
  ((word_length < 0)%Z →
   filter_brute_force word_length c lexicon combos = Raise ValueError) ∧
  ((0 ≤ word_length)%Z →
   length (known_positions c) = Z.to_nat word_length →
   positions_nonneg (forbidden_positions c) →
   ∃ out,
     filter_brute_force word_length c lexicon combos = Ok out ∧
     (∀ w, w ∈ out ↔
           length w = Z.to_nat word_length ∧
           Forall (λ ch, ch ∈ alphabet) w ∧
           word_predicate w c lexicon combos = Ok true) ∧
     NoDup out ∧
     length out ≤ 26 ^ Z.to_nat word_length).
Proof.
  unfold filter_brute_force. split.
  - intros Hneg. by destruct (Z.ltb_spec word_length 0); [|lia].
  - intros Hwl Hknown Hpos. destruct (Z.ltb_spec word_length 0) as [?|_]; [lia|].
    rewrite filter_with_filter.
    + eexists. split; [reflexivity|]. split; [|split].
      * intros w. rewrite list_elem_of_filter, product_elem. tauto.
      * apply NoDup_filter, product_NoDup, alphabet_NoDup.
      * etrans; [apply length_filter|]. by rewrite product_count.
    + apply Forall_forall. intros w [Hlen _]%product_elem.
      apply check_word_returns; [lia | done].
Qed.

Lemma brute_force_exact_witness :
  ∃ out,
    filter_brute_force 1 (Constraints (list_to_set (py "a")) ∅ [Some (Latin "b")] []) None
      (Some ∅) = Ok out ∧
    (∀ w, w ∈ out ↔
          length w = Z.to_nat 1 ∧
          Forall (λ ch, ch ∈ alphabet) w ∧
          word_predicate w (Constraints (list_to_set (py "a")) ∅ [Some (Latin "b")] [])
            None (Some ∅) = Ok true) ∧
    NoDup out ∧
    length out ≤ 26 ^ Z.to_nat 1.
Proof.
  apply (proj2 (brute_force_exact 1 (Constraints (list_to_set (py "a")) ∅
                                       [Some (Latin "b")] []) None (Some ∅))).
  - lia.
  - reflexivity.
  - intros letter positions pos Hin. by apply elem_of_nil in Hin.
Defined.

(** ** [wordl.py] against [protableword.py] *)

Lemma wordl_check_all (cfg : Wordl.config) (dictionary : option (gset str))
    (words : list str) :
  length (Wordl.known_positions cfg) = Z.to_nat (Wordl.word_length cfg) →
  Forall (λ w, Z.of_nat (length w) = Wordl.word_length cfg) words →
  Wordl.check_all cfg dictionary words
  = filter_with (constraints_of cfg)
      (if Wordl.USE_DICTIONARY cfg then dictionary else None) None words.
Proof.
  intros Hknown. induction 1 as [|w words Hw _ IH]; [done|].
  rewrite filter_with_cons. simpl. rewrite wordl_check_word, IH by lia.
  destruct (word_predicate w _ _ _) as [[]|e]; simpl; [| |done].
  - by destruct (filter_with _ _ _ words).
  - by destruct (filter_with _ _ _ words).
Qed.

(** X12: for a word length of at least 1 and a configured list of known
    positions of that length, [wordl.process_chunk] is the filter of
    [protableword.py] run with the configured constraints, no illegal pairs,
    on the words that start with the chunk's letter: the same list in the
    same order, or the same exception.  Every word it returns starts with
    that letter and has the word length; a word length below 1 makes it
    raise [ValueError]. *)
Theorem wordl_process_chunk_is_filter (cfg : Wordl.config) (start_letter : char)
    (dictionary : option (gset str)) :
  ((Wordl.word_length cfg < 1)%Z →
   Wordl.process_chunk cfg start_letter dictionary = Raise ValueError) ∧
  ((1 ≤ Wordl.word_length cfg)%Z →
   length (Wordl.known_positions cfg) = Z.to_nat (Wordl.word_length cfg) →
   Wordl.process_chunk cfg start_letter dictionary
   = filter_with (constraints_of cfg)
       (if Wordl.USE_DICTIONARY cfg then dictionary else None) None
       ((start_letter ::.)
          <$> Py.product Wordl.alphabet (Z.to_nat (Wordl.word_length cfg - 1)))) ∧
  (∀ out, Wordl.process_chunk cfg start_letter dictionary = Ok out →
     Forall (λ w, ∃ rest, w = start_letter :: rest ∧
                          Z.of_nat (length w) = Wordl.word_length cfg) out).
Proof.
  unfold Wordl.process_chunk. split; [|split].
  - intros Hwl. unfold Wordl.candidates.
    by destruct (Z.ltb_spec (Wordl.word_length cfg - 1) 0); [|lia].
  - intros Hwl Hknown.
    destruct (Wordl.candidates cfg start_letter) as [words|e] eqn:Hwords.
    + simpl. rewrite wordl_check_all; [|done|by eapply wordl_candidates_length].
      unfold Wordl.candidates in Hwords.
      destruct (Wordl.word_length cfg - 1 <? 0)%Z; [done|]. by injection Hwords as <-.
    + unfold Wordl.candidates in Hwords.
      by destruct (Z.ltb_spec (Wordl.word_length cfg - 1) 0); [lia|].
  - intros out (words & Hwords & Hout)%bind_Ok.
    assert (Hsub : ∀ ws kept, Wordl.check_all cfg dictionary ws = Ok kept →
                              kept `sublist_of` ws).
    { induction ws as [|w ws IH]; intros kept; simpl.
      - by intros [= <-].
      - intros (r & Hr & (rs & Hrs & [= <-])%bind_Ok)%bind_Ok.
        destruct r as [w'|]; [|by apply sublist_cons, IH].
        assert (w' = w) as ->; [|by apply sublist_skip, IH].
        unfold Wordl.check_word in Hr.
        repeat (match type of Hr with
                | context [if ?b then _ else _] => destruct b
                | context [mbind _ ?m] => destruct m as [[]|]; simpl in Hr
                end; try done).
        by injection Hr. }
    pose proof (wordl_candidates_length cfg start_letter words Hwords) as Hlen.
    apply Forall_forall. intros w Hw.
    pose proof (elem_of_sublist _ _ _ Hw (Hsub _ _ Hout)) as Hin.
    assert (Hw_len : Z.of_nat (length w) = Wordl.word_length cfg)
      by by eapply Forall_forall in Hlen.
    unfold Wordl.candidates in Hwords.
    destruct (Wordl.word_length cfg - 1 <? 0)%Z; [done|]. injection Hwords as <-.
    apply list_elem_of_fmap in Hin as (rest & -> & _). by exists rest.
Qed.

Lemma wordl_process_chunk_is_filter_witness :
  Wordl.process_chunk Wordl.configured "u" None
  = filter_with (constraints_of Wordl.configured)
      (if Wordl.USE_DICTIONARY Wordl.configured then None else None) None
      (((Latin "u") ::.)
         <$> Py.product Wordl.alphabet
               (Z.to_nat (Wordl.word_length Wordl.configured - 1))).
Proof.
  destruct (wordl_process_chunk_is_filter Wordl.configured "u" None) as (_ & Hfilter & _).
  apply Hfilter.
  - simpl. lia.
  - reflexivity.
Defined.

Lemma wordl_chunk_filter (cfg : Wordl.config) (letter : char)
    (dictionary : option (gset str)) :
  (1 ≤ Wordl.word_length cfg)%Z →
  length (Wordl.known_positions cfg) = Z.to_nat (Wordl.word_length cfg) →
  Wordl.process_chunk cfg letter dictionary
  = filter_with (constraints_of cfg)
      (if Wordl.USE_DICTIONARY cfg then dictionary else None) None
      ((letter ::.) <$> Py.product Wordl.alphabet (Z.to_nat (Wordl.word_length cfg - 1))).
Proof.
  intros Hwl Hknown. unfold Wordl.process_chunk.
  destruct (Wordl.candidates cfg letter) as [words|e] eqn:Hwords;
    unfold Wordl.candidates in Hwords;
    destruct (Z.ltb_spec (Wordl.word_length cfg - 1) 0) as [?|_]; try lia; [|done].
  injection Hwords as <-. simpl. apply wordl_check_all; [done|].
  apply Forall_fmap. eapply Forall_impl; [apply product_length|].
  intros w Hw. simpl. rewrite Hw. lia.
Qed.

Lemma filter_bind {A B} (P : B → Prop) `{∀ x, Decision (P x)} (f : A → list B)
    (l : list A) :
  filter P (l ≫= f) = l ≫= λ x, filter P (f x).
Proof.
  induction l as [|x l IH]; [done|]. by rewrite !bind_cons, filter_app, IH.
Qed.

Lemma concat_fmap {A B} (f : A → list B) (l : list A) : concat (f <$> l) = l ≫= f.
Proof.
  induction l as [|x l IH]; [done|].
  rewrite fmap_cons, bind_cons. cbn [concat]. by rewrite IH.
Qed.

Lemma mapM_result_Ok {A B} (f : A → result B) (g : A → B) (l : list A) :
  Forall (λ x, f x = Ok (g x)) l → mapM f l = Ok (g <$> l).
Proof.
  induction 1 as [|x l Hx _ IH]; [done|]. simpl. by rewrite Hx, IH.
Qed.

(** X13: [wordl.py] and the brute-force pass of [protableword.py] find the
    same words.  For a word length of at least 1 and configured known
    positions of that length, whenever the brute-force pass with the
    configured constraints and no illegal pairs returns a list, the
    [__main__] block of [wordl.py] returns too, in whatever order its 26
    chunks complete, with a rearrangement of that list; when the chunks
    complete in alphabet order it is the same list. *)
Theorem wordl_all_words_permutation (cfg : Wordl.config) (dictionary : option (gset str))
    (completion : list char) (out : list str) :
  completion ≡ₚ Wordl.alphabet →
  (1 ≤ Wordl.word_length cfg)%Z →
  length (Wordl.known_positions cfg) = Z.to_nat (Wordl.word_length cfg) →
  filter_brute_force (Wordl.word_length cfg) (constraints_of cfg)
    (if Wordl.USE_DICTIONARY cfg then dictionary else None) None = Ok out →
  ∃ all,
    wordl_all_words cfg dictionary completion = Ok all ∧
    all ≡ₚ out ∧
    (completion = Wordl.alphabet → all = out).
Proof.
  intros Hperm Hwl Hknown. unfold filter_brute_force.
  destruct (Z.ltb_spec (Wordl.word_length cfg) 0) as [?|_]; [lia|].
  set (lexicon := if Wordl.USE_DICTIONARY cfg then dictionary else None).
  set (n := Z.to_nat (Wordl.word_length cfg - 1)).
  replace (Z.to_nat (Wordl.word_length cfg)) with (S n) by lia.
  set (chunk := λ letter : char, (letter ::.) <$> Py.product Wordl.alphabet n).
  assert (Hproduct : Py.product alphabet (S n) = Wordl.alphabet ≫= chunk) by reflexivity.
  rewrite Hproduct. intros [-> Hall]%filter_with_Ok.
  set (admitted := λ w : str, word_predicate w (constraints_of cfg) lexicon None = Ok true).
  exists (completion ≫= λ letter, filter admitted (chunk letter)).
  rewrite filter_bind. split; [|split].
  - unfold wordl_all_words.
    rewrite (mapM_result_Ok _ (λ letter, filter admitted (chunk letter))).
    + simpl. by rewrite concat_fmap.
    + apply Forall_forall. intros letter Hletter.
      rewrite wordl_chunk_filter by done. fold n lexicon. apply filter_with_filter.
      apply Forall_forall. intros w Hw.
      eapply Forall_forall in Hall; [done|].
      apply list_elem_of_bind. exists letter. split; [done|]. by rewrite <- Hperm.
  - by rewrite Hperm.
  - by intros ->.
Qed.

Lemma wordl_all_words_permutation_witness :
  let cfg := Wordl.Config (list_to_set (py "a")) ∅ [Some (Latin "b")] [] 1 true in
  ∃ all,
    wordl_all_words cfg None (reverse Wordl.alphabet) = Ok all ∧
    all ≡ₚ [py "b"] ∧
    (reverse Wordl.alphabet = Wordl.alphabet → all = [py "b"]).
Proof.
  intros cfg.
  apply (wordl_all_words_permutation cfg None (reverse Wordl.alphabet) [py "b"]).
  - apply reverse_Permutation.
  - simpl. lia.
  - reflexivity.
  - by vm_compute.
Defined.

(** ** The session loop *)

Lemma read_forbidden_consumes (int : str → option Z) (lines : list str)
    (printed : list output) (file : list str) (d d' : dict) (w' : world) :
  read_forbidden int lines printed file d = Ok (d', w') →
  length (stdin w') < length lines.
Proof.
  revert printed d. induction lines as [|line lines IH]; intros printed d; simpl; [done|].
  destruct (decide (Py.lower (Py.strip line) = [])).
  - intros [= _ <-]. simpl. lia.
  - destruct (parse_entry int (Py.lower (Py.strip line))) as [[letter positions]|];
      intros H%IH; lia.
Qed.

(** A completed turn has read at least five lines. *)
Lemma turn_consumes (int : str → option Z) (cpu_count : positive) (n : nat)
    (s s' : session) (w w' : world) (again : bool) :
  turn int cpu_count n s w = Ok (s', w', again) →
  length (stdin w') + 5 ≤ length (stdin w).
Proof.
  unfold turn, read_turn, finish_turn, input, print.
  destruct w as [lines printed file]. simpl.
  destruct lines as [|l1 [|l2 [|l3 lines]]]; simpl; try done.
  intros ([delta w1] & ([d w0] & Hread%read_forbidden_consumes & [= <- <-])%bind_Ok
          & H)%bind_Ok.
  apply bind_Ok in H as (m & _ & H).
  apply bind_Ok in H as ([words w2] & Hpass & H).
  assert (stdin w2 = stdin w0) as Hsame.
  { unfold filter_pass in Hpass.
    destruct (use_bruteforce s), (possible_words s); try done;
      by apply bind_Ok in Hpass as (out & _ & [= _ <-]). }
  simpl in H. rewrite Hsame in H.
  destruct (stdin w0) as [|answer rest]; [done|].
  simpl in H. injection H as _ <- _. simpl in *. lia.
Qed.

Lemma turns_mono (int : str → option Z) (cpu_count : positive) (fuel fuel' n : nat)
    (s : session) (w : world) (r : result (session * world)) :
  turns fuel int cpu_count n s w = Some r → fuel ≤ fuel' →
  turns fuel' int cpu_count n s w = Some r.
Proof.
  revert fuel' n s w. induction fuel as [|fuel IH]; intros fuel' n s w; [done|].
  destruct fuel' as [|fuel']; [lia|]. simpl.
  destruct (turn int cpu_count n s w) as [[[s' w'] again]|e]; [|done].
  destruct again; [|done]. intros H Hle. apply IH; [done | lia].
Qed.

Lemma turns_ends (int : str → option Z) (cpu_count : positive) (fuel n : nat)
    (s : session) (w : world) :
  length (stdin w) < 5 * fuel → is_Some (turns fuel int cpu_count n s w).
Proof.
  revert n s w. induction fuel as [|fuel IH]; intros n s w Hfuel; [lia|]. simpl.
  destruct (turn int cpu_count n s w) as [[[s' w'] again]|e] eqn:Hturn; [|by eexists].
  destruct again; [|by eexists]. apply IH. apply turn_consumes in Hturn. lia.
Qed.

(** X14: on any finite input the loop of [main] ends, after at most one
    turn for every five lines of input: with that much fuel the loop has an
    outcome, a final session or an exception, and more fuel gives the same
    outcome. *)
Theorem session_loop_ends (int : str → option Z) (cpu_count : positive) (n : nat)
    (s : session) (w : world) :
  ∃ r, ∀ fuel, length (stdin w) < 5 * fuel → turns fuel int cpu_count n s w = Some r.
Proof.
  destruct (turns_ends int cpu_count (S (length (stdin w))) n s w) as [r Hr]; [lia|].
  exists r. intros fuel Hfuel.
  destruct (turns_ends int cpu_count fuel n s w Hfuel) as [r' Hr'].
  rewrite Hr'. f_equal.
  pose proof (turns_mono _ _ _ (max fuel (S (length (stdin w)))) _ _ _ _ Hr
                ltac:(lia)) as H1.
  pose proof (turns_mono _ _ _ (max fuel (S (length (stdin w)))) _ _ _ _ Hr'
                ltac:(lia)) as H2.
  congruence.
Qed.

Lemma grows_refl (s : session) : grows s s.
Proof.
  repeat split; try done.
  - intros i c Hi. by exists c.
  - intros letter positions Hin. exists []. by rewrite app_nil_r.
  - intros old Hold. by exists old.
Qed.

Lemma grows_trans (s1 s2 s3 : session) : grows s1 s2 → grows s2 s3 → grows s1 s3.
Proof.
  intros (Hw & Hd & Hi & Hb & Hex & Hreq & Hk & Hf & Hp)
         (Hw' & Hd' & Hi' & Hb' & Hex' & Hreq' & Hk' & Hf' & Hp').
  repeat split; try congruence.
  - by trans (excluded_letters (master s2)).
  - by trans (required_letters (master s2)).
  - intros i c Hc. destruct (Hk i c Hc) as [c' Hc']. by apply (Hk' i c').
  - intros letter positions Hin. destruct (Hf _ _ Hin) as [e1 He1].
    destruct (Hf' _ _ He1) as [e2 He2]. exists (e1 ++ e2). by rewrite app_assoc.
  - intros old Hold. destruct (Hp old Hold) as (mid & Hmid & Hsub).
    destruct (Hp' mid Hmid) as (new & Hnew & Hsub'). exists new. split; [done|].
    by trans mid.
Qed.

Lemma turn_grows (int : str → option Z) (cpu_count : positive) (n : nat)
    (s s' : session) (w w' : world) (again : bool) :
  turn int cpu_count n s w = Ok (s', w', again) →
  grows s s' ∧ is_Some (possible_words s').
Proof.
  intros Hturn.
  assert (Hshrink : ∀ old, possible_words s = Some old →
            ∃ new, possible_words s' = Some new ∧ new `sublist_of` old)
    by (intros old Hold; by eapply turn_candidates_shrink).
  unfold turn, finish_turn in Hturn.
  apply bind_Ok in Hturn as ([delta w1] & _ & H).
  apply bind_Ok in H as (m & Hm & H).
  apply bind_Ok in H as ([words w2] & _ & H).
  apply bind_Ok in H as ([cont w3] & _ & [= <- _ _]).
  unfold merge in Hm. apply bind_Ok in Hm as (known & Hknown & [= <-]).
  apply merge_known_lookup in Hknown as [_ Hknown].
  split; [|by eexists]. repeat split; simpl; try done.
  - apply union_subseteq_l.
  - apply union_subseteq_l.
  - intros i c Hi. destruct (Hknown i) as [->|(c' & _ & _ & ->)]; by eexists.
  - intros letter positions Hin. by apply merge_forbidden_entries.
Qed.

(** X15: whatever is typed, a session that ends normally has only narrowed
    things down.  Its word length, dictionary and illegal pairs are those it
    started with; the excluded and required letters contain those it started
    with; every position that was fixed is still fixed; every forbidden
    position list has only been appended to; there is a candidate list, and
    it is a sublist of the one the loop started with, when there was one. *)
Theorem session_only_narrows (int : str → option Z) (cpu_count : positive)
    (fuel n : nat) (s s' : session) (w w' : world) :
  turns fuel int cpu_count n s w = Some (Ok (s', w')) →
  grows s s' ∧
  is_Some (possible_words s') ∧
  (well_formed s → well_formed s').
Proof.
  revert n s w. induction fuel as [|fuel IH]; intros n s w; [done|]. simpl.
  destruct (turn int cpu_count n s w) as [[[s1 w1] again]|e] eqn:Hturn; [|done].
  destruct (turn_grows _ _ _ _ _ _ _ _ Hturn) as [Hgrows Hwords].
  assert (Hwf : well_formed s → well_formed s1)
    by (intros Hs; by eapply turn_well_formed).
  destruct again.
  - intros (Hgrows' & Hwords' & Hwf')%IH. split; [by eapply grows_trans|].
    split; [done | auto].
  - by intros [= <- <-].
Qed.

Lemma session_only_narrows_witness :
  let s := Session 5 None ∅ false (Some [py "unfad"; py "usual"; py "quean"])
                   (Constraints ∅ ∅ [None; None; None; None; None] []) in
  let s' := Session 5 None ∅ false (Some [py "unfad"])
              (Constraints (list_to_set (py "spektogh")) (list_to_set (py "au"))
                           [None; None; None; Some (Latin "a"); None] [(py "u", [2%Z])]) in
  grows s s' ∧ is_Some (possible_words s') ∧ (well_formed s → well_formed s').
Proof.
  intros s s'.
  apply (session_only_narrows Py.int 4 3 1 s s'
           (World [py "spektogh"; py "au"; py "___a_"; py "u:2"; py ""; py "y";
                   py ""; py ""; py ""; py ""; py "n"] [] [])
           (World []
              [TurnHeader 1; Prompt AskExcluded; Prompt AskRequired; Prompt AskKnown;
               Prompt AskForbidden; Prompt AskForbidden;
               Remaining 1; WordList [py "unfad"]; Prompt AskContinue;
               TurnHeader 2; Prompt AskExcluded; Prompt AskRequired; Prompt AskKnown;
               Prompt AskForbidden;
               Remaining 1; WordList [py "unfad"]; Prompt AskContinue]
              [py "unfad"])).
  by vm_compute.
Defined.

(** ** Setting the session up *)

(** No entry of the loaded dictionary is shorter than the word length, and
    each has the word length when no line of the file contains U+0130. *)
Lemma load_dictionary_length (lines : list str) (word_length : Z) (d : gset str) (w : str) :
  load_dictionary (Some lines) word_length = Some d → w ∈ d →
  (word_length ≤ Z.of_nat (length w))%Z ∧
  (Forall (λ line, U0130 ∉ line) lines → Z.of_nat (length w) = word_length).
Proof.
  intros Hd Hw. apply (load_dictionary_elem_of lines word_length d w Hd) in Hw.
  destruct Hw as (line & Hin & <- & ->). split.
  - pose proof (length_lower_ge (Py.strip line)). lia.
  - intros Hlines. rewrite length_lower; [done|].
    intros Hc%strip_subseteq. by eapply Forall_forall in Hlines.
Qed.

(** X16: the set-up of a session.  Answering "y" when [words.txt] is missing
    raises [TypeError] ([list(None)]) instead of falling back to brute force.
    Answering "y" with the file present starts with the loaded dictionary as
    candidates, each word once and none shorter than the word length; when no
    line of the file contains U+0130, each has the word length and nothing is
    out of bounds.  Any other answer starts in brute-force mode with no
    dictionary and no candidates yet.  In every session that starts, the
    master constraints are empty with one unknown slot per letter. *)
Theorem start_session (word_length : Z) (use_dict : str)
    (dictionary_file combos_file : option (list str)) :
  (use_dict = py "y" → dictionary_file = None →
   start word_length use_dict dictionary_file combos_file = Raise TypeError) ∧
  (use_dict = py "y" → ∀ lines, dictionary_file = Some lines →
   ∃ s d words,
     start word_length use_dict dictionary_file combos_file = Ok s ∧
     load_dictionary dictionary_file word_length = Some d ∧
     dictionary s = Some d ∧ possible_words s = Some words ∧
     use_bruteforce s = false ∧
     NoDup words ∧ (∀ w, w ∈ words ↔ w ∈ d) ∧
     well_formed s ∧
     Forall (λ w, (word_length ≤ Z.of_nat (length w))%Z) words ∧
     (Forall (λ line, U0130 ∉ line) lines → in_bounds s)) ∧
  (use_dict ≠ py "y" →
   ∃ s,
     start word_length use_dict dictionary_file combos_file = Ok s ∧
     dictionary s = None ∧ possible_words s = None ∧ use_bruteforce s = true ∧
     ((0 ≤ word_length)%Z → in_bounds s)) ∧
  (∀ s, start word_length use_dict dictionary_file combos_file = Ok s →
     word_length = Protableword.word_length s ∧
     illegal_combos s = load_illegal_combos combos_file ∧
     master s = Constraints ∅ ∅ (replicate (Z.to_nat word_length) None) []).
Proof.
  unfold start. split; [|split; [|split]].
  - intros -> ->. by rewrite decide_True.
  - intros -> lines ->. rewrite decide_True by done.
    destruct (load_dictionary (Some lines) word_length) as [d|] eqn:Hd; [|done].
    eexists _, d, (elements d). simpl.
    assert (Hwf : well_formed
              (Session word_length (Some d) (load_illegal_combos combos_file) false
                       (Some (elements d))
                       (Constraints ∅ ∅ (replicate (Z.to_nat word_length) None) []))).
    { unfold well_formed. simpl. apply length_replicate. }
    split; [reflexivity|]. repeat split; try done.
    + apply NoDup_elements.
    + by intros ?%elem_of_elements.
    + by intros ?%elem_of_elements.
    + apply Forall_forall. intros w Hw%elem_of_elements.
      by apply (load_dictionary_length lines word_length d w Hd) in Hw as [? _].
    + intros letter positions pos Hin. by apply elem_of_nil in Hin.
    + simpl. apply Forall_forall. intros w Hw%elem_of_elements.
      rename select (Forall _ lines) into Hlines.
      apply (load_dictionary_length lines word_length d w Hd) in Hw as [_ Hw].
      specialize (Hw Hlines). lia.
  - intros Hno. rewrite decide_False by done. simpl.
    eexists. split; [reflexivity|]. repeat split; try done.
    + unfold well_formed. simpl. apply length_replicate.
    + intros letter positions pos Hin. by apply elem_of_nil in Hin.
  - intros s ([[dictionary words] brute] & _ & [= <-])%bind_Ok. done.
Qed.

Lemma start_session_witness :
  let lines := [py "Unfad "; py "aqua"; py "usual"; py "unfad"] in
  start 5 (py "y") None None = Raise TypeError ∧
  (∃ s d words,
     start 5 (py "y") (Some lines) None = Ok s ∧
     load_dictionary (Some lines) 5 = Some d ∧
     dictionary s = Some d ∧ possible_words s = Some words ∧
     use_bruteforce s = false ∧
     NoDup words ∧ (∀ w, w ∈ words ↔ w ∈ d) ∧
     well_formed s ∧
     Forall (λ w, (5 ≤ Z.of_nat (length w))%Z) words ∧
     (Forall (λ line, U0130 ∉ line) lines → in_bounds s)).
Proof.
  intros lines. split.
  - by apply (proj1 (start_session 5 (py "y") None None)).
  - destruct (start_session 5 (py "y") (Some lines) None) as (_ & Hfile & _).
    by apply (Hfile eq_refl lines).
Defined.

(** ** Nothing goes out of bounds *)

Lemma dict_extend_nonneg (d : dict) (letter : str) (positions : list Z) :
  positions_nonneg d → Forall (λ pos, 0 ≤ pos)%Z positions →
  positions_nonneg (dict_extend d letter positions).
Proof.
  intros Hd Hpositions. induction d as [|[k v] d IH]; simpl.
  - intros l ps pos Hin%list_elem_of_singleton Hpos. simplify_eq.
    by eapply Forall_forall in Hpositions.
  - assert (Hrest : positions_nonneg d)
      by (intros l ps pos Hin; apply (Hd l ps pos); by right).
    destruct (decide (k = letter)) as [->|Hne].
    + intros l ps pos [[= -> ->]|Hin]%elem_of_cons Hpos.
      * apply elem_of_app in Hpos as [Hpos|Hpos].
        -- apply (Hd letter v pos); [left | done].
        -- by eapply Forall_forall in Hpositions.
      * by apply (Hrest l ps pos).
    + intros l ps pos [[= -> ->]|Hin]%elem_of_cons Hpos.
      * apply (Hd k v pos); [left | done].
      * by apply (IH Hrest l ps pos).
Qed.

Lemma merge_forbidden_nonneg (master turn : dict) :
  positions_nonneg master → positions_nonneg turn →
  positions_nonneg (merge_forbidden master turn).
Proof.
  unfold merge_forbidden. revert master.
  induction turn as [|[k v] turn IH]; intros master Hmaster Hturn; simpl; [done|].
  apply IH.
  - apply dict_extend_nonneg; [done|]. apply Forall_forall. intros pos Hpos.
    apply (Hturn k v pos); [left | done].
  - intros l ps pos Hin. apply (Hturn l ps pos). by right.
Qed.

Lemma read_forbidden_raises (int : str → option Z) (lines : list str)
    (printed : list output) (file : list str) (d : dict) (e : exn) :
  read_forbidden int lines printed file d = Raise e → e = EOFError.
Proof.
  revert printed d. induction lines as [|line lines IH]; intros printed d; simpl.
  - by intros [= <-].
  - destruct (decide (Py.lower (Py.strip line) = [])); [done|].
    destruct (parse_entry int (Py.lower (Py.strip line))) as [[letter positions]|];
      apply IH.
Qed.

Lemma read_turn_raises (int : str → option Z) (word_length : Z) (w : world) (e : exn) :
  read_turn int word_length w = Raise e → e = EOFError.
Proof.
  unfold read_turn, input. destruct w as [lines printed file]. simpl.
  destruct lines as [|l1 [|l2 [|l3 lines]]]; simpl; try by intros [= <-].
  destruct (read_forbidden int lines _ file []) as [[d w']|e'] eqn:Hread; [done|].
  simpl. intros [= <-]. by eapply read_forbidden_raises.
Qed.

(** With candidates of the length of the list of known positions and no
    negative position, a filter pass returns, and returns such candidates. *)
Lemma filter_with_in_bounds (m : constraints) (lexicon combos : option (gset str))
    (candidates : list str) :
  positions_nonneg (forbidden_positions m) →
  Forall (λ w, length w = length (known_positions m)) candidates →
  ∃ out, filter_with m lexicon combos candidates = Ok out ∧
         Forall (λ w, length w = length (known_positions m)) out.
Proof.
  intros Hpos Hlen. eexists. split.
  - apply filter_with_filter. eapply Forall_impl; [exact Hlen|].
    intros w Hw. simpl in Hw. apply check_word_returns; [lia | done].
  - apply Forall_forall. intros w [_ Hw]%list_elem_of_filter.
    by eapply Forall_forall in Hlen.
Qed.

(** X17: in a session where nothing is out of bounds (the master list has
    the word length, no forbidden position is negative, the candidates have
    the word length, or none are generated yet and the word length is not
    negative), the only exception a turn can raise is [EOFError], when the
    input runs out: provided the numbers typed as forbidden positions are not
    negative, the turn completes and the session is again such a session. *)
Theorem turn_stays_in_bounds (int : str → option Z) (cpu_count : positive) (n : nat)
    (s : session) (w : world) :
  in_bounds s →
  (∀ e, read_turn int (word_length s) (print (TurnHeader n) w) = Raise e →
        e = EOFError ∧ turn int cpu_count n s w = Raise EOFError) ∧
  (∀ delta w1,
     read_turn int (word_length s) (print (TurnHeader n) w) = Ok (delta, w1) →
     positions_nonneg (forbidden_positions delta) →
     (stdin w1 = [] ∧ turn int cpu_count n s w = Raise EOFError) ∨
     (∃ s' w' again, turn int cpu_count n s w = Ok (s', w', again) ∧ in_bounds s')).
Proof.
  intros (Hwf & Hpos & Hwords). unfold turn. split.
  - intros e Hread. rewrite Hread. simpl.
    apply read_turn_raises in Hread as ->. done.
  - intros delta w1 Hread Hdelta. rewrite Hread. simpl. unfold finish_turn.
    destruct (merge_returns (word_length s) (master s) delta) as [m Hm];
      [done | by eapply read_turn_known_length |].
    rewrite Hm. simpl.
    assert (length (known_positions m) = Z.to_nat (word_length s) ∧
            positions_nonneg (forbidden_positions m)) as [Hlen Hm_pos].
    { unfold merge in Hm. apply bind_Ok in Hm as (known & Hknown & [= <-]). simpl.
      apply merge_known_lookup in Hknown as [-> _].
      split; [done | by apply merge_forbidden_nonneg]. }
    assert (∃ out w2,
              filter_pass cpu_count s m w1 = Ok (out, w2) ∧ stdin w2 = stdin w1 ∧
              Forall (λ v, length v = Z.to_nat (word_length s)) out)
      as (out & w2 & -> & Hstdin & Hout).
    { unfold filter_pass. rewrite <- Hlen in *.
      destruct (possible_words s) as [old|].
      - destruct (filter_with_in_bounds m (dictionary s) (Some (illegal_combos s)) old)
          as (out & Hfilter & Hout); [done..|].
        exists out, w1.
        rewrite filter_chunks_concat, chunks_of_concat, Hfilter.
        by destruct (use_bruteforce s).
      - destruct Hwords as [-> Hwl]. unfold filter_brute_force.
        destruct (Z.ltb_spec (word_length s) 0) as [?|_]; [lia|].
        destruct (filter_with_in_bounds m (dictionary s) (Some (illegal_combos s))
                    (Py.product alphabet (Z.to_nat (word_length s))))
          as (out & Hfilter & Hout); [done | |].
        + eapply Forall_impl; [apply product_length|]. intros v Hv. simpl in *. lia.
        + exists out, (print Generating w1). by rewrite Hfilter. }
    simpl. unfold input. simpl. rewrite Hstdin.
    destruct (stdin w1) as [|answer rest]; [by left|]. right. simpl.
    eexists _, _, _. split; [reflexivity|]. by repeat split.
Qed.

Lemma turn_stays_in_bounds_witness :
  let s := Session 5 None ∅ false (Some [py "unfad"; py "usual"; py "quean"])
                   (Constraints ∅ ∅ [None; None; None; None; None] []) in
  let w := World [py "spektogh"; py "au"; py "___a_"; py "u:2"; py ""; py "n"] [] [] in
  (stdin (World [py "n"]
            [TurnHeader 1; Prompt AskExcluded; Prompt AskRequired; Prompt AskKnown;
             Prompt AskForbidden; Prompt AskForbidden] []) = [] ∧
   turn Py.int 4 1 s w = Raise EOFError) ∨
  (∃ s' w' again, turn Py.int 4 1 s w = Ok (s', w', again) ∧ in_bounds s').
Proof.
  intros s w.
  assert (Hs : in_bounds s).
  { split; [reflexivity|]. split.
    - intros letter positions pos Hin. by apply elem_of_nil in Hin.
    - simpl. by repeat constructor. }
  destruct (turn_stays_in_bounds Py.int 4 1 s w Hs) as [_ Hturn].
  apply (Hturn (Constraints (list_to_set (py "spektogh")) (list_to_set (py "au"))
                            [None; None; None; Some (Latin "a"); None] [(py "u", [2%Z])])).
  - by vm_compute.
  - intros letter positions pos Hin%list_elem_of_singleton Hpos. simplify_eq.
    apply list_elem_of_singleton in Hpos. lia.
Defined.

(** ** The merge as a conjunction *)

Lemma check_forbidden_cons_true (word letter : str) (positions : list Z) (d : dict) :
  check_forbidden word ((letter, positions) :: d) = Ok true ↔
  check_positions word letter positions = Ok true ∧ check_forbidden word d = Ok true.
Proof.
  simpl. destruct (check_positions word letter positions) as [[]|e]; simpl;
    split; try done; by intros [? ?].
Qed.

Lemma check_positions_app_true (word letter : str) (ps qs : list Z) :
  check_positions word letter (ps ++ qs) = Ok true ↔
  check_positions word letter ps = Ok true ∧ check_positions word letter qs = Ok true.
Proof.
  rewrite check_positions_app.
  destruct (check_positions word letter ps) as [[]|e]; simpl;
    split; try done; by intros [? ?].
Qed.

Lemma check_forbidden_extend_true (word : str) (d : dict) (letter : str)
    (positions : list Z) :
  check_forbidden word (dict_extend d letter positions) = Ok true ↔
  check_forbidden word d = Ok true ∧ check_positions word letter positions = Ok true.
Proof.
  induction d as [|[k v] d IH].
  - cbn [dict_extend]. rewrite check_forbidden_cons_true. simpl. tauto.
  - cbn [dict_extend]. destruct (decide (k = letter)) as [->|Hne].
    + rewrite !check_forbidden_cons_true, check_positions_app_true. tauto.
    + rewrite !check_forbidden_cons_true, IH. tauto.
Qed.

Lemma check_forbidden_merge_true (word : str) (master turn : dict) :
  check_forbidden word (merge_forbidden master turn) = Ok true ↔
  check_forbidden word master = Ok true ∧ check_forbidden word turn = Ok true.
Proof.
  unfold merge_forbidden. revert master.
  induction turn as [|[k v] turn IH]; intros master.
  - simpl. tauto.
  - cbn [foldl]. rewrite IH, check_forbidden_extend_true, check_forbidden_cons_true.
    tauto.
Qed.

(** X18: the merged constraints admit exactly the words that the master
    constraints and the turn's constraints both admit, when the turn names no
    letter for a position other than the one already fixed there.  The turn's
    known positions count up to the word length only; the lexicon and the
    illegal pairs are the same on all three sides. *)
Theorem merge_is_conjunction (word_length : Z) (master turn merged : constraints)
    (word : str) (lexicon illegal_pairs : option (gset str)) :
  merge word_length master turn = Ok merged →
  agrees_with master turn →
  word_predicate word merged lexicon illegal_pairs = Ok true ↔
  word_predicate word master lexicon illegal_pairs = Ok true ∧
  word_predicate word
    (Constraints (excluded_letters turn) (required_letters turn)
                 (take (Z.to_nat word_length) (known_positions turn))
                 (forbidden_positions turn))
    lexicon illegal_pairs = Ok true.
Proof.
  unfold merge. intros (known & Hknown & [= <-])%bind_Ok Hagree.
  pose proof (merge_known_exact _ _ _ _ Hknown) as Hexact.
  unfold word_predicate. rewrite !check_word_true. simpl.
  rewrite check_forbidden_merge_true, !check_known_true. simpl.
  assert (Hin : ∀ j, j ∈ Py.range word_length ↔ j < Z.to_nat word_length).
  { intros j. rewrite elem_of_range. lia. }
  split.
  - intros (Hlex & Hex & Hreq & Hk & [Hf Hf'] & Hpairs).
    assert (Hmaster : ∀ j ch, known_positions master !! j = Some (Some ch) →
                              word !! j = Some ch).
    { intros j ch Hj. apply Hk. rewrite Hexact.
      destruct (known_positions turn !! j) as [[c'|]|] eqn:Hturn; [|done..].
      destruct (decide (j ∈ Py.range word_length)); [|done].
      by rewrite (Hagree j ch c' Hj Hturn). }
    assert (Hturn : ∀ j ch,
              take (Z.to_nat word_length) (known_positions turn) !! j = Some (Some ch) →
              word !! j = Some ch).
    { intros j ch [Hj Hlt]%lookup_take_Some. apply Hk. rewrite Hexact, Hj.
      rewrite decide_True; [done | by apply Hin]. }
    repeat split; try done.
    + intros ch Hch Hm. apply (Hex ch Hch), elem_of_union. by left.
    + intros ch Hch. apply Hreq, elem_of_union. by left.
    + intros ch Hch Hm. apply (Hex ch Hch), elem_of_union. by right.
    + intros ch Hch. apply Hreq, elem_of_union. by right.
  - intros [(Hlex & Hex & Hreq & Hk & Hf & Hpairs) (_ & Hex' & Hreq' & Hk' & Hf' & _)].
    repeat split; try done.
    + intros ch Hch [Hm|Hm]%elem_of_union; [by apply (Hex ch) | by apply (Hex' ch)].
    + intros ch [Hm|Hm]%elem_of_union; [by apply Hreq | by apply Hreq'].
    + intros j ch. rewrite Hexact.
      destruct (known_positions turn !! j) as [[c'|]|] eqn:Hturn; [|apply Hk..].
      destruct (decide (j ∈ Py.range word_length)) as [Hj|]; [|apply Hk].
      intros [= <-]. apply Hk', lookup_take_Some. split; [done | by apply Hin].
Qed.

Lemma merge_is_conjunction_witness :
  let master := Constraints (list_to_set (py "spek")) (list_to_set (py "a"))
                            [None; None; None; Some (Latin "a"); None] [(py "u", [2%Z])] in
  let turn := Constraints (list_to_set (py "togh")) (list_to_set (py "u"))
                          [Some (Latin "u"); None; None; Some (Latin "a"); None]
                          [(py "u", [4%Z]); (py "n", [0%Z])] in
  let merged := Constraints (list_to_set (py "spektogh")) (list_to_set (py "au"))
                            [Some (Latin "u"); None; None; Some (Latin "a"); None]
                            [(py "u", [2%Z; 4%Z]); (py "n", [0%Z])] in
  word_predicate (py "unfad") merged None (Some ∅) = Ok true ↔
  word_predicate (py "unfad") master None (Some ∅) = Ok true ∧
  word_predicate (py "unfad")
    (Constraints (excluded_letters turn) (required_letters turn)
                 (take (Z.to_nat 5) (known_positions turn)) (forbidden_positions turn))
    None (Some ∅) = Ok true.
Proof.
  intros master turn merged.
  apply (merge_is_conjunction 5 master turn merged (py "unfad") None (Some ∅)).
  - by vm_compute.
  - intros [|[|[|[|[|i]]]]] c c' H1 H2; simpl in *; congruence.
Defined.

(** ** A dictionary session from start to end *)

Lemma turns_grows (int : str → option Z) (cpu_count : positive) (fuel n : nat)
    (s s' : session) (w w' : world) :
  turns fuel int cpu_count n s w = Some (Ok (s', w')) →
  grows s s' ∧ possible_words s' = Some (output_file w').
Proof.
  revert n s w. induction fuel as [|fuel IH]; intros n s w; [done|]. simpl.
  destruct (turn int cpu_count n s w) as [[[s1 w1] again]|e] eqn:Hturn; [|done].
  destruct (turn_grows _ _ _ _ _ _ _ _ Hturn) as [Hgrows _].
  destruct again.
  - intros [Hgrows' Hsaved]%IH. split; [by eapply grows_trans | done].
  - intros [= <- <-]. split; [done|].
    unfold turn, finish_turn in Hturn.
    apply bind_Ok in Hturn as ([delta w0] & _ & H).
    apply bind_Ok in H as (m & _ & H).
    apply bind_Ok in H as ([words w2] & _ & H).
    apply bind_Ok in H as ([cont w3] & Hinput & [= <- <- _]).
    unfold input in Hinput. simpl in Hinput.
    destruct (stdin w2); [done|]. by injection Hinput as _ <-.
Qed.

(** X19: a session started on a dictionary file ends, when it ends
    normally, with [output.txt] holding the final candidates: words of the
    loaded dictionary, each at most once and none shorter than the word
    length, in the order the session started with them; each has the word
    length when no line of the dictionary file contains U+0130. *)
Theorem dictionary_session_output (int : str → option Z) (cpu_count : positive)
    (fuel : nat) (word_length : Z) (lines : list str) (combos_file : option (list str))
    (s s' : session) (w w' : world) :
  start word_length (py "y") (Some lines) combos_file = Ok s →
  turns fuel int cpu_count 1 s w = Some (Ok (s', w')) →
  ∃ d first,
    load_dictionary (Some lines) word_length = Some d ∧
    possible_words s = Some first ∧
    possible_words s' = Some (output_file w') ∧
    output_file w' `sublist_of` first ∧
    NoDup (output_file w') ∧
    Forall (λ v, v ∈ d ∧ (word_length ≤ Z.of_nat (length v))%Z) (output_file w') ∧
    (Forall (λ line, U0130 ∉ line) lines →
     Forall (λ v, Z.of_nat (length v) = word_length) (output_file w')).
Proof.
  unfold start. rewrite decide_True by done.
  destruct (load_dictionary (Some lines) word_length) as [d|] eqn:Hd; [|done].
  simpl. intros [= <-] [Hgrows Hsaved]%turns_grows.
  destruct Hgrows as (_ & _ & _ & _ & _ & _ & _ & _ & Hshrink).
  destruct (Hshrink (elements d)) as (new & Hnew & Hsub); [done|].
  rewrite Hsaved in Hnew. injection Hnew as <-.
  assert (Hin : ∀ v, v ∈ output_file w' → v ∈ d).
  { intros v Hv. by pose proof (elem_of_sublist _ _ _ Hv Hsub) as ?%elem_of_elements. }
  exists d, (elements d). split; [done|]. split; [done|]. split; [done|].
  split; [done|]. split; [|split].
  - eapply sublist_NoDup; [apply (NoDup_elements d) | done].
  - apply Forall_forall. intros v Hv%Hin. split; [done|].
    by apply (load_dictionary_length lines word_length d v Hd) in Hv as [? _].
  - intros Hlines. apply Forall_forall. intros v Hv%Hin.
    apply (load_dictionary_length lines word_length d v Hd) in Hv as [_ Hv]. by apply Hv.
Qed.

Lemma dictionary_session_output_witness :
  let lines := [py "Unfad "; py "aqua"; py "usual"; py "unfad"] in
  let w' := World []
              [TurnHeader 1; Prompt AskExcluded; Prompt AskRequired; Prompt AskKnown;
               Prompt AskForbidden; Prompt AskForbidden;
               Remaining 1; WordList [py "unfad"]; Prompt AskContinue]
              [py "unfad"] in
  ∃ d first,
    load_dictionary (Some lines) 5 = Some d ∧
    possible_words
      (Session 5 (Some (list_to_set [py "unfad"; py "usual"])) ∅ false
               (Some (elements (list_to_set [py "unfad"; py "usual"] : gset str)))
               (Constraints ∅ ∅ [None; None; None; None; None] []))
    = Some first ∧
    possible_words
      (Session 5 (Some (list_to_set [py "unfad"; py "usual"])) ∅ false
               (Some [py "unfad"])
               (Constraints (list_to_set (py "spektogh")) (list_to_set (py "au"))
                            [None; None; None; Some (Latin "a"); None] [(py "u", [2%Z])]))
    = Some (output_file w') ∧
    output_file w' `sublist_of` first ∧
    NoDup (output_file w') ∧
    Forall (λ v, v ∈ d ∧ (5 ≤ Z.of_nat (length v))%Z) (output_file w') ∧
    (Forall (λ line, U0130 ∉ line) lines →
     Forall (λ v, Z.of_nat (length v) = 5%Z) (output_file w')).
Proof.
  intros lines w'.
  apply (dictionary_session_output Py.int 4 2 5 lines None _ _
           (World [py "spektogh"; py "au"; py "___a_"; py "u:2"; py ""; py "n"] [] [])
           w').
  - by vm_compute.
  - by vm_compute.
Defined.

(** ** What the two loaders keep *)

(** X20: [protableword.load_dictionary] keeps exactly the trimmed, lowercased
    lines whose trimmed length is the word length; no entry is shorter than
    the word length, and every entry has the word length when no line of the
    file contains U+0130.  [wordl.load_dictionary] keeps the trimmed,
    lowercased form of every line that is not blank, whatever its length.
    Neither returns a dictionary when the file is missing, nor does
    [wordl.load_dictionary] when [USE_DICTIONARY] is off. *)
Theorem load_dictionary_keeps (lines : list str) :
  (∀ word_length : Z,
     ∃ d, load_dictionary (Some lines) word_length = Some d ∧
          (∀ w, w ∈ d ↔
                ∃ line, line ∈ lines ∧
                        Z.of_nat (length (Py.strip line)) = word_length ∧
                        w = Py.lower (Py.strip line)) ∧
          (∀ w, w ∈ d → (word_length ≤ Z.of_nat (length w))%Z) ∧
          (Forall (λ line, U0130 ∉ line) lines →
           ∀ w, w ∈ d → Z.of_nat (length w) = word_length)) ∧
  (∀ cfg : Wordl.config,
     Wordl.USE_DICTIONARY cfg = true →
     ∃ d, Wordl.load_dictionary cfg (Some lines) = Some d ∧
          ∀ w, w ∈ d ↔
               ∃ line, line ∈ lines ∧ Py.strip line ≠ [] ∧ w = Py.lower (Py.strip line)) ∧
  (∀ word_length : Z, load_dictionary None word_length = None) ∧
  (∀ cfg : Wordl.config, Wordl.load_dictionary cfg None = None) ∧
  (∀ cfg : Wordl.config,
     Wordl.USE_DICTIONARY cfg = false → Wordl.load_dictionary cfg (Some lines) = None).
Proof.
  split; [|split; [|split; [|split]]].
  - intros word_length.
    destruct (load_dictionary (Some lines) word_length) as [d|] eqn:Hd; [|done].
    exists d. split; [done|]. split; [|split].
    + intros w. by apply (load_dictionary_elem_of lines word_length).
    + intros w Hw. by apply (load_dictionary_length lines word_length d w Hd) in Hw as [? _].
    + intros Hlines w Hw.
      apply (load_dictionary_length lines word_length d w Hd) in Hw as [_ Hw]. by apply Hw.
  - intros cfg Huse. unfold Wordl.load_dictionary. rewrite Huse. simpl.
    eexists. split; [reflexivity|].
    intros w. rewrite elem_of_list_to_set, list_elem_of_fmap. split.
    + intros (t & -> & (line & -> & [Hne Hin]%list_elem_of_filter)%list_elem_of_fmap).
      by exists line.
    + intros (line & Hin & Hne & ->). exists (Py.strip line). split; [done|].
      apply list_elem_of_fmap. exists line. split; [done|].
      by apply list_elem_of_filter.
  - done.
  - intros cfg. unfold Wordl.load_dictionary. by destruct (negb _).
  - intros cfg Huse. unfold Wordl.load_dictionary. by rewrite Huse.
Qed.
